(** * Transportation model of [main.py]: formulation builder and
    sensitivity interpreter

    A shallow embedding of [solve_problem_using_pulp],
    [print_conclusions_constraints_sensibility_analysis] and
    [print_conclusions_variables_sensibility_analysis].

    Conventions of the embedding.
    - Numbers read from the JSON file and reported by the solver are exact
      rationals ([Qc]); rounding and not-a-number values of binary floating
      point are outside the model.
    - Strings are sequences of code points below 256 ([string]).
    - A raised Python exception is a value of [PyError]; [print] appends a
      line to an output trace, which is kept when an exception ends the run.
    - The behaviour of the PuLP objects used by the script (name
      translation, [LpVariable.dicts], [lpSum], overlapping constraint
      names) and of the [re] and pandas calls is written out in the modules
      [Py] and [Pulp] below. *)

From Stdlib Require Import QArith Qcanon Qcabs Ascii.
From stdpp Require Import numbers base option list strings gmap fin_maps sorting.

Open Scope string_scope.
Open Scope list_scope.
Open Scope nat_scope.

(** ** Python values, exceptions and output *)

Module Py.

Inductive PyError : Set :=
| KeyError
| ValueError
| IndexError
| TypeError
| AttributeError
| PulpError.

Inductive result (A : Type) : Type :=
| Ok (a : A)
| Raise (e : PyError).

Arguments Ok {A} a.
Arguments Raise {A} e.

#[export] Instance result_ret : MRet result := λ A, Ok.

#[export] Instance result_bind : MBind result :=
  λ A B f r, match r with Ok a => f a | Raise e => Raise e end.

(** A cell of a printed data frame. *)
Inductive Cell : Type :=
| CStr (s : string)
| CNum (q : Qc).

(** One positional argument of [print]: a string, a number, or a data
    frame given by its column labels and its rows. *)
Inductive PrintArg : Type :=
| PStr (s : string)
| PNum (q : Qc)
| PTable (columns : list string) (rows : list (list Cell)).

(** One call of [print]: its arguments, in order. *)
Definition Line : Type := list PrintArg.

(** A run that prints: the lines printed so far and how it ended. *)
Definition io (A : Type) : Type := (list Line * result A)%type.

#[export] Instance io_ret : MRet io := λ A a, ([], Ok a).

#[export] Instance io_bind : MBind io :=
  λ A B f m,
    match m with
    | (out, Ok a) => let '(out', r) := f a in (out ++ out', r)
    | (out, Raise e) => (out, Raise e)
    end.

Definition print (args : Line) : io unit := ([args], Ok tt).

Definition raise {A} (e : PyError) : io A := ([], Raise e).

(** A computation that does not print. *)
Definition lift {A} (r : result A) : io A := ([], r).

(** [for x in l: body x], for a body that only prints or raises. *)
Fixpoint for_each {A} (body : A → io unit) (l : list A) : io unit :=
  match l with
  | [] => mret tt
  | x :: l' => body x ;; for_each body l'
  end.

(** [for x in l: st = body x st], for a body that updates [st] or raises. *)
Fixpoint for_state {A S} (body : A → S → result S) (l : list A) (st : S)
  : result S :=
  match l with
  | [] => Ok st
  | x :: l' => st' ← body x st; for_state body l' st'
  end.

(** [{k: v for (k, v) in items}]: successive assignments, a later item
    overrides an earlier one with the same key. *)
Definition dict `{Countable K} {V} (items : list (K * V)) : gmap K V :=
  foldl (λ m kv, <[kv.1 := kv.2]> m) ∅ items.

(** [d[k]] *)
Definition getitem `{Countable K} {V} (d : gmap K V) (k : K) : result V :=
  match d !! k with
  | Some v => Ok v
  | None => Raise KeyError
  end.

(** The items of [{k: v for (k, v) in items}] in iteration order: a key
    keeps the position of its first assignment. *)
Fixpoint assign `{EqDecision K} {V} (k : K) (v : V) (items : list (K * V))
  : list (K * V) :=
  match items with
  | [] => [(k, v)]
  | (k', v') :: rest =>
      if decide (k' = k) then (k', v) :: rest else (k', v') :: assign k v rest
  end.

Definition dict_items `{EqDecision K} {V} (items : list (K * V))
  : list (K * V) :=
  foldl (λ acc kv, assign kv.1 kv.2 acc) [] items.

(** *** Characters and strings *)

Definition apostrophe : ascii := Eval cbv in ascii_of_nat 39.
Definition dquote : ascii := Eval cbv in ascii_of_nat 34.
Definition backslash : ascii := Eval cbv in ascii_of_nat 92.
Definition newline : ascii := Eval cbv in ascii_of_nat 10.
Definition tab : ascii := Eval cbv in ascii_of_nat 9.
Definition carriage_return : ascii := Eval cbv in ascii_of_nat 13.

Definition chr (a : ascii) : string := String a EmptyString.

Fixpoint contains (a : ascii) (s : string) : bool :=
  match s with
  | EmptyString => false
  | String b s' => if decide (a = b) then true else contains a s'
  end.

Fixpoint map_chars (f : ascii → ascii) (s : string) : string :=
  match s with
  | EmptyString => EmptyString
  | String a s' => String (f a) (map_chars f s')
  end.

Fixpoint concat_map (f : ascii → string) (s : string) : string :=
  match s with
  | EmptyString => EmptyString
  | String a s' => f a +:+ concat_map f s'
  end.

(** [s[i:j]] for [0 <= i <= j] *)
Definition slice (i j : nat) (s : string) : string :=
  String.substring i (j - i) s.

(** [s[-n:]] for [n > 0] *)
Definition suffix (n : nat) (s : string) : string :=
  String.substring (String.length s - n) n s.

Definition hex_digit (n : nat) : ascii :=
  ascii_of_nat (if decide (n < 10) then 48 + n else 87 + n).

(** Code points below 256 that [str.isprintable] accepts. *)
Definition isprintable (a : ascii) : bool :=
  let n := nat_of_ascii a in
  bool_decide (32 ≤ n ∧ n < 127) || bool_decide (161 ≤ n ∧ n ≠ 173).

(** [repr(s)] for a [str]. *)
Definition repr_quote (s : string) : ascii :=
  if contains apostrophe s && negb (contains dquote s)
  then dquote else apostrophe.

Definition repr_char (quote a : ascii) : string :=
  if decide (a = quote ∨ a = backslash) then String backslash (chr a)
  else if decide (a = tab) then String backslash "t"
  else if decide (a = newline) then String backslash "n"
  else if decide (a = carriage_return) then String backslash "r"
  else if isprintable a then chr a
  else String backslash
         (String "x" (String (hex_digit (nat_of_ascii a / 16))
                        (chr (hex_digit (nat_of_ascii a mod 16))))).

Definition repr (s : string) : string :=
  let q := repr_quote s in
  String q (concat_map (repr_char q) s +:+ chr q).

(** [str((a, b))] for a pair of [str]. *)
Definition str_pair (p : string * string) : string :=
  "(" +:+ repr p.1 +:+ ", " +:+ repr p.2 +:+ ")".

(** [int(s)] for a string of at most one character. *)
Definition int (s : string) : result nat :=
  match s with
  | String a EmptyString =>
      let n := nat_of_ascii a in
      if decide (48 ≤ n ∧ n ≤ 57) then Ok (n - 48) else Raise ValueError
  | _ => Raise ValueError
  end.

(** [re.findall(r"(?<=[']).{3}(?=['])", s)]: scanning from the left, a
    match is three characters other than a newline, with an apostrophe just
    before and just after; the search resumes where a match ends.  [prev]
    is the character before the current position. *)
Definition dot (a : ascii) : bool := bool_decide (a ≠ newline).

Fixpoint findall_from (prev : option ascii) (s : string) : list string :=
  match s with
  | EmptyString => []
  | String a s1 =>
      match s1 with
      | String b (String c (String q _ as s3)) =>
          if bool_decide (prev = Some apostrophe) && dot a && dot b && dot c
             && bool_decide (q = apostrophe)
          then String a (String b (chr c)) :: findall_from (Some c) s3
          else findall_from (Some a) s1
      | _ => findall_from (Some a) s1
      end
  end.

Definition findall (s : string) : list string := findall_from None s.

(** [l[i]] *)
Definition index {A} (l : list A) (i : nat) : io A :=
  match l !! i with
  | Some x => mret x
  | None => raise IndexError
  end.

(** *** The pandas calls *)

(** [pd.MultiIndex.from_tuples(keys)] needs at least one tuple to infer
    the number of levels. *)
Definition from_tuples {A} (keys : list A) : io (list A) :=
  match keys with
  | [] => raise TypeError
  | _ => mret keys
  end.

(** [df[df[col] == 0].apply(body, axis=1)] for the frame made of the
    records [rows]: a frame made of no record has no column [col]; the
    body runs once on each selected row, in order. *)
Definition select_zero_apply {R} (col : R → Qc) (body : R → io unit)
  (rows : list R) : io unit :=
  match rows with
  | [] => raise KeyError
  | _ => for_each body (filter (λ r, col r = Q2Qc 0) rows)
  end.

End Py.

Import Py.

(** ** The PuLP objects used by the script *)

Module Pulp.

(** An index of [vQuantityExchanged]: a (source, customer) tuple. *)
Abbreviation Index := (string * string)%type.

Inductive LpCategory : Set := Continuous | Integer | Binary.

(** A decision variable.  [ident] stands for the identity of the Python
    object: the index under which [LpVariable.dicts] created it. *)
Record LpVariable : Type := mkLpVariable {
  ident : Index;
  name : string;
  lowBound : option Qc;
  upBound : option Qc;
  cat : LpCategory
}.

#[export] Instance LpCategory_eq_dec : EqDecision LpCategory.
Proof. solve_decision. Defined.

#[export] Instance LpVariable_eq_dec : EqDecision LpVariable.
Proof. solve_decision. Defined.

(** [LpElement.name] setter: every character of ["-+[] ->/"] becomes an
    underscore. *)
Definition illegal_chars : string := "-+[] ->/".

Definition trans (a : ascii) : ascii :=
  if contains a illegal_chars then "_"%char else a.

Definition translate (s : string) : string := map_chars trans s.

(** [LpAffineExpression]: a dictionary from variables to coefficients, in
    insertion order, and a constant. *)
Record LpAffineExpression : Type := mkExpr {
  terms : list (LpVariable * Qc);
  constant : Qc
}.

Definition empty_expr : LpAffineExpression := mkExpr [] (Q2Qc 0).

(** [LpAffineExpression(v)] *)
Definition of_var (v : LpVariable) : LpAffineExpression :=
  mkExpr [(v, 1%Qc)] (Q2Qc 0).

(** [addterm(key, value)] *)
Fixpoint addterm (key : LpVariable) (value : Qc)
  (ts : list (LpVariable * Qc)) : list (LpVariable * Qc) :=
  match ts with
  | [] => [(key, value)]
  | (k, y) :: ts' =>
      if decide (k = key) then (k, (y + value)%Qc) :: ts'
      else (k, y) :: addterm key value ts'
  end.

(** An element of the list given to [lpSum]. *)
Inductive Operand : Type :=
| OVar (v : LpVariable)
| OExpr (e : LpAffineExpression).

(** [addInPlace(other)] *)
Definition addInPlace (self : LpAffineExpression) (other : Operand)
  : LpAffineExpression :=
  match other with
  | OVar v => mkExpr (addterm v 1%Qc (terms self)) (constant self)
  | OExpr e =>
      mkExpr (foldl (λ ts vx, addterm vx.1 vx.2 ts) (terms self) (terms e))
        (constant self + constant e)%Qc
  end.

Definition lpSum (vector : list Operand) : LpAffineExpression :=
  foldl addInPlace empty_expr vector.

(** [other * v] for a number [other] and a variable [v]. *)
Definition mul (other : Qc) (v : LpVariable) : LpAffineExpression :=
  if decide (other ≠ Q2Qc 0)
  then mkExpr [(v, (other * 1)%Qc)] (Q2Qc 0 * other)%Qc
  else empty_expr.

Inductive LpConstraintSense : Set := LpConstraintLE | LpConstraintEQ | LpConstraintGE.

(** [LpConstraint]: the expression [lhs - rhs] and its sense against 0. *)
Record LpConstraint : Type := mkConstraint {
  expr : LpAffineExpression;
  sense : LpConstraintSense
}.

Definition compare_with (sn : LpConstraintSense) (e : LpAffineExpression)
  (rhs : Qc) : LpConstraint :=
  mkConstraint (mkExpr (terms e) (constant e - rhs)%Qc) sn.

(** [e <= rhs], [e >= rhs] and [v == rhs] *)
Definition le (e : LpAffineExpression) (rhs : Qc) : LpConstraint :=
  compare_with LpConstraintLE e rhs.

Definition ge (e : LpAffineExpression) (rhs : Qc) : LpConstraint :=
  compare_with LpConstraintGE e rhs.

Definition eq_var (v : LpVariable) (rhs : Qc) : LpConstraint :=
  compare_with LpConstraintEQ (of_var v) rhs.

Inductive LpSense : Set := LpMinimize | LpMaximize.

Record LpProblem : Type := mkLpProblem {
  problem_name : string;
  problem_sense : LpSense;
  objective : option LpAffineExpression;
  constraints : list (string * LpConstraint)
}.

(** [LpProblem(name, sense)] *)
Definition new_problem (nm : string) (sn : LpSense) : LpProblem :=
  mkLpProblem nm sn None [].

(** [model += e] for an expression [e] *)
Definition set_objective (e : LpAffineExpression) (model : LpProblem)
  : LpProblem :=
  mkLpProblem (problem_name model) (problem_sense model) (Some e)
    (constraints model).

(** [model += (c, nm)] for a constraint [c]: the name is translated, and a
    name already in [model.constraints] raises [PulpError]. *)
Definition addConstraint (c : LpConstraint) (nm : string) (model : LpProblem)
  : result LpProblem :=
  let nm' := translate nm in
  if decide (nm' ∈ (constraints model).*1) then Raise PulpError
  else Ok (mkLpProblem (problem_name model) (problem_sense model)
             (objective model) (constraints model ++ [(nm', c)])).

(** [LpVariable.dicts(nm, indices, lowBound, upBound, cat)] for a name
    without a percent sign and one sequence of pair indices. *)
Definition new_variable (nm : string) (lb ub : option Qc) (ct : LpCategory)
  (i : Index) : LpVariable :=
  mkLpVariable i (translate (nm +:+ "_" +:+ str_pair i)) lb ub ct.

Definition LpVariable_dicts (nm : string) (indices : list Index)
  (lb ub : option Qc) (ct : LpCategory) : gmap Index LpVariable :=
  dict ((λ i, (i, new_variable nm lb ub ct i)) <$> indices).

(** [addVariables(vs)] on the list [_variables] of a problem: a variable
    not yet in the list is appended. *)
Definition addVariables (vs known : list LpVariable) : list LpVariable :=
  foldl (λ acc v, if decide (v ∈ acc) then acc else acc ++ [v]) known vs.

(** [sort(key=lambda v: v.name)], a stable sort. *)
Fixpoint insert_by_name (v : LpVariable) (l : list LpVariable)
  : list LpVariable :=
  match l with
  | [] => [v]
  | w :: l' =>
      if String.leb (name v) (name w) then v :: l
      else w :: insert_by_name v l'
  end.

Definition sort_by_name (l : list LpVariable) : list LpVariable :=
  foldr insert_by_name [] l.

(** [model.variables()]: the variables that the constraints brought when
    they were added, then those of the objective, sorted by name. *)
Definition variables (model : LpProblem) : list LpVariable :=
  let from_constraints :=
    foldl (λ known nc, addVariables (terms (expr nc.2)).*1 known) []
      (constraints model) in
  sort_by_name
    (addVariables (from_option (λ e, (terms e).*1) [] (objective model))
       from_constraints).

Inductive Status : Set :=
| NotSolved | Optimal | Infeasible | Unbounded | Undefined.

(** The dictionary [LpStatus] *)
Definition LpStatus (st : Status) : string :=
  match st with
  | NotSolved => "Not Solved"
  | Optimal => "Optimal"
  | Infeasible => "Infeasible"
  | Unbounded => "Unbounded"
  | Undefined => "Undefined"
  end.

(** What [model.solve(solver)] leaves behind: the status, [varValue] and
    [dj] on every variable, [slack] and [pi] on every constraint (by
    name). *)
Record Solution : Type := mkSolution {
  status : Status;
  varValue : LpVariable → Qc;
  dj : LpVariable → Qc;
  slack : string → Qc;
  pi : string → Qc
}.

(** [value(e)] under the variable values [x] *)
Definition value (x : LpVariable → Qc) (e : LpAffineExpression) : Qc :=
  foldr (λ vx acc, (vx.2 * x vx.1 + acc)%Qc) (constant e) (terms e).

(** Whether the values [x] satisfy the constraint [c]. *)
Definition satisfied (x : LpVariable → Qc) (c : LpConstraint) : Prop :=
  match sense c with
  | LpConstraintLE => (value x (expr c) ≤ Q2Qc 0)%Qc
  | LpConstraintEQ => value x (expr c) = Q2Qc 0
  | LpConstraintGE => (Q2Qc 0 ≤ value x (expr c))%Qc
  end.

End Pulp.

Import Pulp.

(** ** [solve_problem_using_pulp] *)

(** The content of the JSON data file.  The two tables are sequences of
    items [{"index": [source, customer], "value": number}]. *)
Record Data : Type := mkData {
  data_sSources : list string;
  data_sCustomers : list string;
  data_pSourceProduction : gmap string Qc;
  data_pCustomerDemand : gmap string Qc;
  data_pTransportationCosts : list (Index * Qc);
  data_pFixedTransportation : list (Index * Qc)
}.

Section Formulation.

Variable data : Data.

Definition sSources : list string := data_sSources data.
Definition sCustomers : list string := data_sCustomers data.
Definition pSourceProduction : gmap string Qc := data_pSourceProduction data.
Definition pCustomerDemand : gmap string Qc := data_pCustomerDemand data.

Definition pTransportationCosts : gmap Index Qc :=
  dict (data_pTransportationCosts data).

Definition sSources_Customers : list Index :=
  (data_pTransportationCosts data).*1.

Definition pFixedTransportation : gmap Index Qc :=
  dict (data_pFixedTransportation data).

(** [c for c in sCustomers if (s, c) in sSources_Customers] *)
Definition customers_of (s : string) : list string :=
  filter (λ c, (s, c) ∈ sSources_Customers) sCustomers.

(** [s for s in sSources if (s, c) in sSources_Customers] *)
Definition sources_of (c : string) : list string :=
  filter (λ s, (s, c) ∈ sSources_Customers) sSources.

(** [(s, c) for s in sSources for c in sCustomers
     if (s, c) in sSources_Customers] *)
Definition pairs : list Index :=
  s ← sSources; (λ c, (s, c)) <$> customers_of s.

Definition vQuantityExchanged : gmap Index LpVariable :=
  LpVariable_dicts "quantity_in_tons" pairs (Some (Q2Qc 0)) None Continuous.

(** The list given to [lpSum] for the objective function. *)
Definition objective_terms : result (list Operand) :=
  mapM (λ sc,
      cost ← getitem pTransportationCosts sc;
      v ← getitem vQuantityExchanged sc;
      Ok (OExpr (mul cost v)))
    pairs.

(** Body of the loop "Production limit for each source". *)
Definition production_limit (s : string) (model : LpProblem)
  : result LpProblem :=
  vs ← mapM (λ c, getitem vQuantityExchanged (s, c)) (customers_of s);
  rhs ← getitem pSourceProduction s;
  addConstraint (le (lpSum (OVar <$> vs)) rhs) ("c01_production_" +:+ s) model.

(** Body of the loop "Demand limit for each customer". *)
Definition demand_limit (c : string) (model : LpProblem)
  : result LpProblem :=
  vs ← mapM (λ s, getitem vQuantityExchanged (s, c)) (sources_of c);
  rhs ← getitem pCustomerDemand c;
  addConstraint (ge (lpSum (OVar <$> vs)) rhs) ("c02_demand_" +:+ c) model.

(** Body of the loops "Quantity that is mandatory to move". *)
Definition fixed_flow (s c : string) (model : LpProblem) : result LpProblem :=
  if decide ((s, c) ∈ sSources_Customers) then
    f ← getitem pFixedTransportation (s, c);
    if decide (f ≠ Q2Qc 0) then
      v ← getitem vQuantityExchanged (s, c);
      addConstraint (eq_var v f) ("c03_fixed_" +:+ s +:+ "_" +:+ c) model
    else Ok model
  else Ok model.

(** Lines 41 to 81: the model handed to the solver. *)
Definition build : result LpProblem :=
  let model := new_problem "Network_flows_optimization" LpMinimize in
  ops ← objective_terms;
  let model := set_objective (lpSum ops) model in
  model ← for_state production_limit sSources model;
  model ← for_state demand_limit sCustomers model;
  for_state (λ s, for_state (fixed_flow s) sCustomers) sSources model.

End Formulation.

(** ** The sensitivity interpreter *)

Definition print_conclusions_constraints_sensibility_analysis
  (constraint_name : string) (shadow_price : Qc) (sources : list string)
  : io unit :=
  constraint_number ← lift (int (slice 2 3 constraint_name));
  let location := suffix 3 constraint_name in
  if decide (constraint_number ≤ 2 ∧ location ∈ sources) then
    if decide (shadow_price < Q2Qc 0)%Qc then
      print [PStr "The total transportation cost would be reduced by";
             PNum (Qcabs shadow_price);
             PStr "euros for each additional ton available in";
             PStr location]
    else if decide (Q2Qc 0 < shadow_price)%Qc then
      print [PStr "The total transportation cost would be increased in";
             PNum shadow_price;
             PStr "euros for each additional ton available in";
             PStr location]
    else
      print [PStr "The total transportation cost would remain equal for each additional ton available in";
             PStr location]
  else if decide (constraint_number ≤ 2) then
    if decide (shadow_price < Q2Qc 0)%Qc then
      print [PStr "The total transportation cost would be reduced by";
             PNum (Qcabs shadow_price);
             PStr "euros for each additional ton supply at";
             PStr location]
    else if decide (Q2Qc 0 < shadow_price)%Qc then
      print [PStr "The total transportation cost would be increased in";
             PNum shadow_price;
             PStr "euros for each additional ton supply at";
             PStr location]
    else
      print [PStr "The total transportation cost would remain equal for each additional ton supply at";
             PStr location]
  else mret tt.

Definition print_conclusions_variables_sensibility_analysis
  (variable_name : string) (reduced_cost : Qc) : io unit :=
  let list_source_customer := findall variable_name in
  source ← index list_source_customer 0;
  customer ← index list_source_customer 1;
  if decide (reduced_cost < Q2Qc 0)%Qc then
    print [PStr "The total transportation cost would be reduced by";
           PNum (Qcabs reduced_cost);
           PStr "euros for each ton supply from";
           PStr source; PStr "to"; PStr customer]
  else if decide (Q2Qc 0 < reduced_cost)%Qc then
    print [PStr "The total cost would be increased in";
           PNum reduced_cost;
           PStr "euros for each ton supply from";
           PStr source; PStr "to"; PStr customer]
  else
    print [PStr "The total transportation cost would remain equal for each ton supply from";
           PStr source; PStr "to"; PStr customer].

(** ** Printing the results (lines 102 to 151) *)

(** A row of the constraints frame and of the variables frame. *)
Record ConstraintRow : Type := mkConstraintRow {
  row_Constraint : string;
  row_Slack : Qc;
  row_Shadow_price : Qc
}.

Record VariableRow : Type := mkVariableRow {
  row_Variable : string;
  row_Value : Qc;
  row_Reduced_cost : Qc
}.

Definition list_sensibility_analysis_constraints (model : LpProblem)
  (sol : Solution) : list ConstraintRow :=
  (λ nc, mkConstraintRow nc.1 (slack sol nc.1) (pi sol nc.1))
    <$> constraints model.

Definition list_sensibility_analysis_variables (model : LpProblem)
  (sol : Solution) : list VariableRow :=
  (λ v, mkVariableRow (name v) (varValue sol v) (dj sol v))
    <$> variables model.

(** "Conclusions" for the constraints (lines 129 to 134). *)
Definition conclusions_constraints (rows : list ConstraintRow)
  (sources : list string) : io unit :=
  select_zero_apply row_Slack
    (λ row, print_conclusions_constraints_sensibility_analysis
              (row_Constraint row) (row_Shadow_price row) sources)
    rows.

(** "Conclusions" for the variables (lines 145 to 150). *)
Definition conclusions_variables (rows : list VariableRow) : io unit :=
  select_zero_apply row_Value
    (λ row, print_conclusions_variables_sensibility_analysis
              (row_Variable row) (row_Reduced_cost row))
    rows.

Section Results.

Variable data : Data.
Variable model : LpProblem.
Variable sol : Solution.

(** The items of [dict_quantity_sources_customers], before the dictionary
    is formed. *)
Definition quantity_items : result (list (Index * Qc)) :=
  items ← mapM (λ sc,
      v ← getitem (vQuantityExchanged data) sc;
      Ok (sc, varValue sol v))
    (pairs data);
  Ok (filter (λ kv, (Q2Qc 0 < kv.2)%Qc) items).

Definition print_results : io unit :=
  print [PStr (chr newline)];;
  print [PStr "Solver status: "; PStr (LpStatus (status sol));
         PStr (chr newline)];;
  total ← match objective model with
          | Some e => mret (value (varValue sol) e)
          | None => raise AttributeError
          end;
  print [PStr "Total transportation cost: "; PNum total; PStr (chr newline)];;
  print [PStr "Quantity exchanged between sources and customers:"];;
  items ← lift quantity_items;
  let dict_quantity_sources_customers := dict_items items in
  keys ← from_tuples dict_quantity_sources_customers.*1;
  print [PTable ["Source"; "Customer"; "Quantity"]
           ((λ kv, [CStr kv.1.1; CStr kv.1.2; CNum kv.2])
              <$> dict_quantity_sources_customers)];;
  print [PStr (chr newline)];;
  print [PStr "Sensibility analysis - constraints:"];;
  let rows := list_sensibility_analysis_constraints model sol in
  print [PTable (match rows with
                 | [] => []
                 | _ => ["Constraint"; "Slack"; "Shadow price"]
                 end)
           ((λ r, [CStr (row_Constraint r); CNum (row_Slack r);
                   CNum (row_Shadow_price r)]) <$> rows)];;
  print [PStr (chr newline)];;
  conclusions_constraints rows (sSources data);;
  print [PStr (chr newline)];;
  print [PStr "Sensibility analysis - variables:"];;
  let vrows := list_sensibility_analysis_variables model sol in
  print [PTable (match vrows with
                 | [] => []
                 | _ => ["Variable"; "Value"; "Reduced cost"]
                 end)
           ((λ r, [CStr (row_Variable r); CNum (row_Value r);
                   CNum (row_Reduced_cost r)]) <$> vrows)];;
  print [PStr (chr newline)];;
  conclusions_variables vrows;;
  print [PStr (chr newline)].

End Results.

(** The whole function, for a solver [solve] that answers any model. *)
Definition solve_problem_using_pulp (solve : LpProblem → Solution)
  (data : Data) : io unit :=
  model ← lift (build data);
  print_results data model (solve model).

(** ** Vocabulary of the statements *)

(** The variable object that [vQuantityExchanged] holds for a pair. *)
Definition quantity (sc : Index) : LpVariable :=
  new_variable "quantity_in_tons" (Some (Q2Qc 0)) None Continuous sc.

Definition Qcsum (l : list Qc) : Qc := foldr Qcplus (Q2Qc 0) l.

(** The constraints stored in the model under a name. *)
Definition named (model : LpProblem) (nm : string) : list LpConstraint :=
  (filter (λ nc, nc.1 = nm) (constraints model)).*2.

(** The expression has a term for the variable of the pair [sc]. *)
Definition mentions (e : LpAffineExpression) (sc : Index) : Prop :=
  ∃ v a, (v, a) ∈ terms e ∧ ident v = sc.

(** The value of one element of the list given to [lpSum]. *)
Definition value_operand (x : LpVariable → Qc) (o : Operand) : Qc :=
  match o with
  | OVar v => x v
  | OExpr e => value x e
  end.

(** The variables that an element of the list given to [lpSum] brings. *)
Definition operand_vars (o : Operand) : list LpVariable :=
  match o with
  | OVar v => [v]
  | OExpr e => (terms e).*1
  end.

(** The unit cost read for a pair that has one. *)
Definition cost (data : Data) (sc : Index) : Qc :=
  default (Q2Qc 0) (pTransportationCosts data !! sc).

(** [m'] is [m] with the named constraints [es] added at the end, and
    names stay distinct. *)
Record extends (m m' : LpProblem) (es : list (string * LpConstraint))
  : Prop := mkExtends {
  ext_constraints : constraints m' = constraints m ++ es;
  ext_objective : objective m' = objective m;
  ext_sense : problem_sense m' = problem_sense m;
  ext_NoDup : NoDup (constraints m).*1 → NoDup (constraints m').*1
}.

(** What each loop body of the builder adds to the model. *)
Definition production_entry (data : Data) (s : string)
  : list (string * LpConstraint) :=
  match pSourceProduction data !! s with
  | Some rhs =>
      [(translate ("c01_production_" +:+ s),
        le (lpSum (OVar <$> ((λ c, quantity (s, c)) <$> customers_of data s)))
          rhs)]
  | None => []
  end.

Definition demand_entry (data : Data) (c : string)
  : list (string * LpConstraint) :=
  match pCustomerDemand data !! c with
  | Some rhs =>
      [(translate ("c02_demand_" +:+ c),
        ge (lpSum (OVar <$> ((λ s, quantity (s, c)) <$> sources_of data c)))
          rhs)]
  | None => []
  end.

Definition fixed_entry (data : Data) (s c : string)
  : list (string * LpConstraint) :=
  if decide ((s, c) ∈ sSources_Customers data) then
    match pFixedTransportation data !! (s, c) with
    | Some f =>
        if decide (f ≠ Q2Qc 0)
        then [(translate ("c03_fixed_" +:+ s +:+ "_" +:+ c),
               eq_var (quantity (s, c)) f)]
        else []
    | None => []
    end
  else [].

(** The model that a successful run of the builder returns. *)
Record built (data : Data) (model : LpProblem) : Prop := mkBuilt {
  built_production :
    ∀ s, s ∈ sSources data → is_Some (pSourceProduction data !! s);
  built_demand :
    ∀ c, c ∈ sCustomers data → is_Some (pCustomerDemand data !! c);
  built_fixed :
    ∀ s c, (s, c) ∈ pairs data →
      is_Some (pFixedTransportation data !! (s, c));
  built_constraints :
    constraints model
    = (sSources data ≫= production_entry data)
      ++ (sCustomers data ≫= demand_entry data)
      ++ (sSources data ≫= λ s, sCustomers data ≫= fixed_entry data s);
  built_NoDup : NoDup (constraints model).*1;
  built_objective :
    objective model
    = Some (lpSum ((λ sc, OExpr (mul (cost data sc) (quantity sc)))
                     <$> pairs data));
  built_sense : problem_sense model = LpMinimize
}.

(** The same solver answer under another status. *)
Definition with_status (st : Status) (sol : Solution) : Solution :=
  mkSolution st (varValue sol) (dj sol) (slack sol) (pi sol).

(** The line that reports the status. *)
Definition status_line (st : Status) : Line :=
  [PStr "Solver status: "; PStr (LpStatus st); PStr (chr newline)].

(** The family ordinal that the interpreter reads in a constraint name. *)
Definition constraint_number (nm : string) : result nat := int (slice 2 3 nm).

(** What the "Conclusions" steps print for one row of each frame. *)
Definition statements_for_constraint (sources : list string)
  (row : ConstraintRow) : list Line :=
  if decide (row_Slack row = Q2Qc 0)
  then (print_conclusions_constraints_sensibility_analysis
          (row_Constraint row) (row_Shadow_price row) sources).1
  else [].

Definition statements_for_variable (row : VariableRow) : list Line :=
  if decide (row_Value row = Q2Qc 0)
  then (print_conclusions_variables_sensibility_analysis
          (row_Variable row) (row_Reduced_cost row)).1
  else [].

(** The wording of a conclusion about a constraint: the text printed just
    before the location. *)
Definition ends_with (t s : string) : Prop :=
  suffix (String.length t) s = t.

Definition place_text (l : Line) : option string :=
  match reverse l with
  | PStr _ :: PStr t :: _ => Some t
  | _ => None
  end.

Definition source_narrative (l : Line) : Prop :=
  ∃ t, place_text l = Some t ∧ ends_with "additional ton available in" t.

Definition customer_narrative (l : Line) : Prop :=
  ∃ t, place_text l = Some t ∧ ends_with "additional ton supply at" t.

(** A character that [repr] and the translation of names leave as it
    is: printable, not an apostrophe, not a backslash, and none of
    ["-+[] ->/"]. *)
Definition plain (a : ascii) : Prop :=
  isprintable a = true ∧ a ≠ apostrophe ∧ a ≠ backslash
  ∧ contains a illegal_chars = false.

(** A location code of exactly three plain characters. *)
Definition plain_code (s : string) : Prop :=
  ∃ a b c, s = String a (String b (chr c)) ∧ plain a ∧ plain b ∧ plain c.

(** ** Sample data *)

Definition q (n : Z) (d : positive) : Qc := Q2Qc (n # d).

(** Two sources and three customers; Gou does not serve Ber and Arn does
    not serve Lon; one ton is mandatory from Arn to Ams. *)
Definition sample_data : Data :=
  mkData ["Gou"; "Arn"] ["Ams"; "Ber"; "Lon"]
    (<["Gou" := q 10 1]> (<["Arn" := q 5 1]> ∅))
    (<["Ams" := q 4 1]> (<["Ber" := q 3 1]> (<["Lon" := q 8 1]> ∅)))
    [(("Gou", "Ams"), q 5 2); (("Gou", "Lon"), q 3 1);
     (("Arn", "Ams"), q 16 5); (("Arn", "Ber"), q 27 10)]
    [(("Gou", "Ams"), q 0 1); (("Gou", "Lon"), q 0 1);
     (("Arn", "Ams"), q 1 1); (("Arn", "Ber"), q 0 1)].

(** The sample with a demand of 20 tons in Lon: the demands add up to 27
    tons and the capacities to 15. *)
Definition scarce_data : Data :=
  mkData ["Gou"; "Arn"] ["Ams"; "Ber"; "Lon"]
    (<["Gou" := q 10 1]> (<["Arn" := q 5 1]> ∅))
    (<["Ams" := q 4 1]> (<["Ber" := q 3 1]> (<["Lon" := q 20 1]> ∅)))
    [(("Gou", "Ams"), q 5 2); (("Gou", "Lon"), q 3 1);
     (("Arn", "Ams"), q 16 5); (("Arn", "Ber"), q 27 10)]
    [(("Gou", "Ams"), q 0 1); (("Gou", "Lon"), q 0 1);
     (("Arn", "Ams"), q 1 1); (("Arn", "Ber"), q 0 1)].

(** An answer with status Infeasible: Gou ships its 10 tons to Lon, Arn
    ships 1 ton to Ams and 3 to Ber. *)
Definition infeasible_answer : Solution :=
  mkSolution Infeasible
    (λ v, if decide (ident v = ("Gou", "Lon")) then q 10 1
          else if decide (ident v = ("Arn", "Ams")) then q 1 1
          else if decide (ident v = ("Arn", "Ber")) then q 3 1
          else q 0 1)
    (λ v, if decide (ident v = ("Gou", "Ams")) then q (-1) 2 else q 0 1)
    (λ nm, if decide (nm = "c01_production_Gou") then q 0 1
           else if decide (nm = "c01_production_Arn") then q 1 1
           else if decide (nm = "c02_demand_Ams") then q 3 1
           else if decide (nm = "c02_demand_Lon") then q 10 1
           else q 0 1)
    (λ nm, if decide (nm = "c01_production_Gou") then q (-3) 1
           else if decide (nm = "c02_demand_Ber") then q 27 10
           else q 0 1).

(** The sample without the fixed-flow item of the lane from Gou to Lon. *)
Definition no_fixed_item_data : Data :=
  mkData ["Gou"; "Arn"] ["Ams"; "Ber"; "Lon"]
    (<["Gou" := q 10 1]> (<["Arn" := q 5 1]> ∅))
    (<["Ams" := q 4 1]> (<["Ber" := q 3 1]> (<["Lon" := q 8 1]> ∅)))
    [(("Gou", "Ams"), q 5 2); (("Gou", "Lon"), q 3 1);
     (("Arn", "Ams"), q 16 5); (("Arn", "Ber"), q 27 10)]
    [(("Gou", "Ams"), q 0 1);
     (("Arn", "Ams"), q 1 1); (("Arn", "Ber"), q 0 1)].

(** One lane whose source code has a hyphen. *)
Definition hyphen_data : Data :=
  mkData ["A-B"] ["Ams"]
    (<["A-B" := q 10 1]> ∅)
    (<["Ams" := q 4 1]> ∅)
    [(("A-B", "Ams"), q 5 2)]
    [(("A-B", "Ams"), q 0 1)].

(** The sample with Gou listed twice among the sources. *)
Definition repeated_source_data : Data :=
  mkData ["Gou"; "Arn"; "Gou"] ["Ams"; "Ber"; "Lon"]
    (<["Gou" := q 10 1]> (<["Arn" := q 5 1]> ∅))
    (<["Ams" := q 4 1]> (<["Ber" := q 3 1]> (<["Lon" := q 8 1]> ∅)))
    [(("Gou", "Ams"), q 5 2); (("Gou", "Lon"), q 3 1);
     (("Arn", "Ams"), q 16 5); (("Arn", "Ber"), q 27 10)]
    [(("Gou", "Ams"), q 0 1); (("Gou", "Lon"), q 0 1);
     (("Arn", "Ams"), q 1 1); (("Arn", "Ber"), q 0 1)].

(** ** Vocabulary of the further properties *)

(** Every table holds what the builder reads in it. *)
Definition tables_complete (data : Data) : Prop :=
  (∀ s, s ∈ sSources data → is_Some (pSourceProduction data !! s))
  ∧ (∀ c, c ∈ sCustomers data → is_Some (pCustomerDemand data !! c))
  ∧ (∀ sc, sc ∈ pairs data → is_Some (pFixedTransportation data !! sc)).

(** The pairs with a fixed flow other than zero, in the order of the
    loops. *)
Definition fixed_lanes (data : Data) : list Index :=
  filter (λ sc, default (Q2Qc 0) (pFixedTransportation data !! sc) ≠ Q2Qc 0)
    (pairs data).

(** The names under which the builder stores its constraints, in the
    order of the three loops. *)
Definition production_name (s : string) : string :=
  translate ("c01_production_" +:+ s).

Definition demand_name (c : string) : string :=
  translate ("c02_demand_" +:+ c).

Definition fixed_name (sc : Index) : string :=
  translate ("c03_fixed_" +:+ sc.1 +:+ "_" +:+ sc.2).

Definition constraint_names (data : Data) : list string :=
  (production_name <$> sSources data)
  ++ (demand_name <$> sCustomers data)
  ++ (fixed_name <$> fixed_lanes data).

(** [model] with the named constraints [es] added at the end. *)
Definition add_constraints (es : list (string * LpConstraint))
  (model : LpProblem) : LpProblem :=
  mkLpProblem (problem_name model) (problem_sense model) (objective model)
    (constraints model ++ es).

(** The data with another sequence of fixed-flow items. *)
Definition with_fixed_items (items : list (Index * Qc)) (data : Data)
  : Data :=
  mkData (data_sSources data) (data_sCustomers data)
    (data_pSourceProduction data) (data_pCustomerDemand data)
    (data_pTransportationCosts data) items.

(** The rows of the frame of the quantities: the pairs with a positive
    value, in the order of the loops. *)
Definition positive_flows (data : Data) (sol : Solution)
  : list (Index * Qc) :=
  filter (λ kv, (Q2Qc 0 < kv.2)%Qc)
    ((λ sc, (sc, varValue sol (quantity sc))) <$> pairs data).

(** The list is in ascending order of the names. *)
Definition sorted_by_name (l : list LpVariable) : Prop :=
  StronglySorted (λ v w, String.le (name v) (name w)) l.

(** The sample with the source Gouda in place of Gou. *)
Definition long_code_data : Data :=
  mkData ["Gouda"; "Arn"] ["Ams"; "Ber"; "Lon"]
    (<["Gouda" := q 10 1]> (<["Arn" := q 5 1]> ∅))
    (<["Ams" := q 4 1]> (<["Ber" := q 3 1]> (<["Lon" := q 8 1]> ∅)))
    [(("Gouda", "Ams"), q 5 2); (("Gouda", "Lon"), q 3 1);
     (("Arn", "Ams"), q 16 5); (("Arn", "Ber"), q 27 10)]
    [(("Gouda", "Ams"), q 0 1); (("Gouda", "Lon"), q 0 1);
     (("Arn", "Ams"), q 1 1); (("Arn", "Ber"), q 0 1)].

(** An answer that ships nothing. *)
Definition idle_answer : Solution :=
  mkSolution Optimal (λ _, q 0 1) (λ _, q 0 1) (λ _, q 0 1) (λ _, q 0 1).

(** * Properties *)

(** ** The Python fragments on examples *)

Example repr_plain : repr "Gou" = "'Gou'".
Proof. reflexivity. Qed.

Example repr_with_apostrophe :
  repr (String "a" (String apostrophe "b"))
  = String dquote (String "a" (String apostrophe (String "b" (chr dquote)))).
Proof. reflexivity. Qed.

Example repr_control : repr (chr newline) = String apostrophe (String backslash (String "n" (chr apostrophe))).
Proof. reflexivity. Qed.

Example repr_del : repr (chr (ascii_of_nat 127)) = String apostrophe (String backslash "x7f'").
Proof. reflexivity. Qed.

Example findall_two : findall "x_('Gou',_'Ams')" = ["Gou"; "Ams"].
Proof. reflexivity. Qed.

Example findall_adjacent : findall "'abc'def'" = ["abc"; "def"].
Proof. reflexivity. Qed.

Example slice_digit : slice 2 3 "c01_production_Gou" = "1" ∧ suffix 3 "c01_production_Gou" = "Gou" ∧ suffix 3 "ab" = "ab".
Proof. repeat split. Qed.

(** ** The builder on the samples *)

Example sample_variable_name :
  name (quantity ("Gou", "Ams")) = "quantity_in_tons_('Gou',_'Ams')".
Proof. reflexivity. Qed.

Example sample_constraint_names :
  ∃ model,
    build sample_data = Ok model
    ∧ (constraints model).*1
      = ["c01_production_Gou"; "c01_production_Arn"; "c02_demand_Ams";
         "c02_demand_Ber"; "c02_demand_Lon"; "c03_fixed_Arn_Ams"].
Proof. eexists. split; vm_compute; reflexivity. Qed.

Example repeated_source_raises :
  build repeated_source_data = Raise PulpError.
Proof. vm_compute. reflexivity. Qed.

(** ** Dictionaries *)

Section dict_facts.

Context `{Countable K} {V : Type}.

Implicit Types (items : list (K * V)) (k : K) (v : V).

Lemma dict_snoc items k v :
  dict (items ++ [(k, v)]) = <[k := v]> (dict items).
Proof. unfold dict. by rewrite foldl_snoc. Qed.

Lemma dict_lookup_None items k : dict items !! k = None ↔ k ∉ items.*1.
Proof.
  induction items as [|[k' v'] items IH] using rev_ind.
  - cbn. rewrite lookup_empty. split; [intros _; apply not_elem_of_nil | done].
  - rewrite dict_snoc, fmap_app, not_elem_of_app. cbn.
    destruct (decide (k' = k)) as [->|Hne].
    + rewrite lookup_insert_eq. split; [done|]. intros [_ Hn].
      exfalso. apply Hn. apply list_elem_of_here.
    + rewrite lookup_insert_ne by done. rewrite IH.
      rewrite list_elem_of_singleton. split; [intros ?; split; congruence | tauto].
Qed.

Lemma dict_lookup_Some items k v : dict items !! k = Some v → (k, v) ∈ items.
Proof.
  induction items as [|[k' v'] items IH] using rev_ind.
  - cbn. by rewrite lookup_empty.
  - rewrite dict_snoc, elem_of_app, list_elem_of_singleton.
    destruct (decide (k' = k)) as [->|Hne].
    + rewrite lookup_insert_eq. intros [= ->]. by right.
    + rewrite lookup_insert_ne by done. auto.
Qed.

Lemma dict_lookup_is_Some items k : is_Some (dict items !! k) ↔ k ∈ items.*1.
Proof.
  rewrite <- not_eq_None_Some, dict_lookup_None.
  destruct (decide (k ∈ items.*1)); tauto.
Qed.

Lemma dict_lookup_fun (f : K → V) (l : list K) k :
  dict ((λ i, (i, f i)) <$> l) !! k
  = if decide (k ∈ l) then Some (f k) else None.
Proof.
  assert (Hkeys : ((λ i, (i, f i)) <$> l).*1 = l).
  { rewrite <- list_fmap_compose. apply list_fmap_id. }
  destruct (decide (k ∈ l)) as [Hin|Hnin].
  - destruct (dict ((λ i, (i, f i)) <$> l) !! k) as [v|] eqn:E.
    + apply dict_lookup_Some in E.
      apply list_elem_of_fmap in E as (i & [= -> ->] & _). done.
    + apply dict_lookup_None in E. by rewrite Hkeys in E.
  - apply dict_lookup_None. by rewrite Hkeys.
Qed.

End dict_facts.

(** ** The exception monad *)

Lemma bind_Ok {A B} (f : A → result B) (r : result A) (b : B) :
  r ≫= f = Ok b → ∃ a, r = Ok a ∧ f a = Ok b.
Proof. destruct r as [a|e]; cbn; [eauto | discriminate]. Qed.

Lemma mapM_Ok_fmap {A B} (f : A → result B) (g : A → B) (l : list A) :
  (∀ x, x ∈ l → f x = Ok (g x)) → mapM f l = Ok (g <$> l).
Proof.
  induction l as [|a l IH]; intros Hf; [done|]. cbn.
  rewrite (Hf a) by apply list_elem_of_here. cbn.
  rewrite IH; [done|]. intros x Hx. apply Hf. by apply list_elem_of_further.
Qed.

(** ** Values of expressions *)

#[local] Arguments value : simpl never.
#[local] Arguments Qcsum : simpl never.

Lemma Qcsum_nil : Qcsum [] = Q2Qc 0.
Proof. done. Qed.

Lemma Qcsum_cons a l : Qcsum (a :: l) = (a + Qcsum l)%Qc.
Proof. done. Qed.

Lemma Qcsum_app l k : Qcsum (l ++ k) = (Qcsum l + Qcsum k)%Qc.
Proof.
  induction l as [|a l IH]; cbn.
  - rewrite Qcsum_nil. ring.
  - rewrite !Qcsum_cons, IH. ring.
Qed.

Lemma Qcsum_Permutation l k : l ≡ₚ k → Qcsum l = Qcsum k.
Proof.
  induction 1 as [|a l k _ IH|a b l|l k m _ IH1 _ IH2].
  - done.
  - by rewrite !Qcsum_cons, IH.
  - rewrite !Qcsum_cons. ring.
  - by rewrite IH1.
Qed.

Section value_facts.

Variable x : LpVariable → Qc.

Lemma value_addterm k a ts c :
  value x (mkExpr (addterm k a ts) c) = (a * x k + value x (mkExpr ts c))%Qc.
Proof.
  unfold value. cbn. induction ts as [|[k' y] ts IH]; cbn; [done|].
  destruct (decide (k' = k)) as [->|Hne]; cbn; [ring|].
  rewrite IH. ring.
Qed.

Lemma value_constant ts c c' :
  value x (mkExpr ts (c + c')) = (value x (mkExpr ts c) + c')%Qc.
Proof.
  unfold value. cbn. induction ts as [|[k y] ts IH]; cbn; [done|].
  rewrite IH. ring.
Qed.

Lemma value_nil c : value x (mkExpr [] c) = c.
Proof. done. Qed.

Lemma value_cons k a ts c :
  value x (mkExpr ((k, a) :: ts) c) = (a * x k + value x (mkExpr ts c))%Qc.
Proof. done. Qed.

Lemma value_addterms ts' ts c :
  value x (mkExpr (foldl (λ ts vx, addterm vx.1 vx.2 ts) ts ts') c)
  = (value x (mkExpr ts c) + value x (mkExpr ts' (Q2Qc 0)))%Qc.
Proof.
  revert ts. induction ts' as [|[k a] ts' IH]; intros ts; cbn.
  - rewrite value_nil. ring.
  - rewrite IH, value_addterm, value_cons. ring.
Qed.

Lemma value_addInPlace e o :
  value x (addInPlace e o) = (value x e + value_operand x o)%Qc.
Proof.
  destruct e as [ts c], o as [v|[ts' c']]; cbn.
  - rewrite value_addterm. ring.
  - rewrite value_constant, value_addterms.
    replace c' with (Q2Qc 0 + c')%Qc at 2 by ring.
    rewrite (value_constant ts'). ring.
Qed.

Lemma value_foldl_addInPlace ops e :
  value x (foldl addInPlace e ops)
  = (value x e + Qcsum (value_operand x <$> ops))%Qc.
Proof.
  revert e. induction ops as [|o ops IH]; intros e; cbn.
  - rewrite Qcsum_nil. ring.
  - rewrite IH, value_addInPlace, Qcsum_cons. ring.
Qed.

Lemma value_lpSum ops : value x (lpSum ops) = Qcsum (value_operand x <$> ops).
Proof.
  unfold lpSum, empty_expr. rewrite value_foldl_addInPlace, value_nil. ring.
Qed.

Lemma value_mul a v : value x (mul a v) = (a * x v)%Qc.
Proof.
  unfold mul, empty_expr.
  destruct (decide (a ≠ Q2Qc 0)) as [Hne|Heq].
  - rewrite value_cons, value_nil. ring.
  - apply dec_stable in Heq. subst a. rewrite value_nil. ring.
Qed.

Lemma value_compare_with sn e rhs :
  value x (expr (compare_with sn e rhs)) = (value x e - rhs)%Qc.
Proof.
  destruct e as [ts c]. cbn. unfold Qcminus. by rewrite value_constant.
Qed.

End value_facts.

(** ** The index pairs and the variables *)

Section pairs_facts.

Variable data : Data.

Lemma elem_of_customers_of s c :
  c ∈ customers_of data s
  ↔ c ∈ sCustomers data ∧ (s, c) ∈ sSources_Customers data.
Proof. unfold customers_of. rewrite list_elem_of_filter. tauto. Qed.

Lemma elem_of_sources_of s c :
  s ∈ sources_of data c
  ↔ s ∈ sSources data ∧ (s, c) ∈ sSources_Customers data.
Proof. unfold sources_of. rewrite list_elem_of_filter. tauto. Qed.

Lemma elem_of_pairs s c :
  (s, c) ∈ pairs data
  ↔ s ∈ sSources data ∧ c ∈ sCustomers data
    ∧ (s, c) ∈ sSources_Customers data.
Proof.
  unfold pairs. rewrite list_elem_of_bind. split.
  - intros (s' & Hin & Hs'). apply list_elem_of_fmap in Hin as (c' & [= -> ->] & Hc).
    apply elem_of_customers_of in Hc. tauto.
  - intros (Hs & Hc & Hl). exists s. split; [|done].
    apply list_elem_of_fmap. exists c. by rewrite elem_of_customers_of.
Qed.

Lemma NoDup_pairs :
  NoDup (sSources data) → NoDup (sCustomers data) → NoDup (pairs data).
Proof.
  intros Hs Hc. unfold pairs. apply NoDup_bind; [| |done].
  - intros s1 s2 [s c] _ _ H1 H2.
    apply list_elem_of_fmap in H1 as (? & [= -> ->] & _).
    by apply list_elem_of_fmap in H2 as (? & [= -> ->] & _).
  - intros s _. apply NoDup_fmap_2; [intros ?? [= ->]; done|].
    by apply NoDup_filter.
Qed.

Lemma vQuantityExchanged_lookup sc :
  vQuantityExchanged data !! sc
  = if decide (sc ∈ pairs data) then Some (quantity sc) else None.
Proof.
  unfold vQuantityExchanged, LpVariable_dicts. by rewrite dict_lookup_fun.
Qed.

Lemma vQuantityExchanged_getitem sc :
  sc ∈ pairs data → getitem (vQuantityExchanged data) sc = Ok (quantity sc).
Proof.
  intros Hin. unfold getitem. rewrite vQuantityExchanged_lookup.
  by rewrite decide_True.
Qed.

Lemma pTransportationCosts_getitem sc :
  sc ∈ sSources_Customers data →
  getitem (pTransportationCosts data) sc = Ok (cost data sc).
Proof.
  intros Hin. unfold getitem, cost.
  apply (dict_lookup_is_Some (data_pTransportationCosts data)) in Hin
    as [v Hv].
  unfold pTransportationCosts. by rewrite Hv.
Qed.

Lemma objective_terms_Ok :
  objective_terms data
  = Ok ((λ sc, OExpr (mul (cost data sc) (quantity sc))) <$> pairs data).
Proof.
  unfold objective_terms. apply mapM_Ok_fmap. intros [s c] Hin.
  rewrite vQuantityExchanged_getitem by done.
  apply elem_of_pairs in Hin as (_ & _ & Hl).
  by rewrite pTransportationCosts_getitem.
Qed.

End pairs_facts.

(** ** Adding constraints *)

Lemma extends_refl m : extends m m [].
Proof. split; [by rewrite app_nil_r | done..]. Qed.

Lemma extends_trans m1 m2 m3 es1 es2 :
  extends m1 m2 es1 → extends m2 m3 es2 → extends m1 m3 (es1 ++ es2).
Proof.
  intros [Hc1 Ho1 Hs1 Hn1] [Hc2 Ho2 Hs2 Hn2]. split.
  - by rewrite Hc2, Hc1, app_assoc.
  - congruence.
  - congruence.
  - auto.
Qed.

Lemma addConstraint_extends c nm m m' :
  addConstraint c nm m = Ok m' → extends m m' [(translate nm, c)].
Proof.
  unfold addConstraint.
  destruct (decide (translate nm ∈ (constraints m).*1)) as [|Hfresh];
    [discriminate|].
  intros [= <-]. split; cbn; [done..|].
  intros Hnd. rewrite fmap_app. apply NoDup_app. split; [done|].
  split; [|apply NoDup_singleton].
  intros n Hn [->|[]%elem_of_nil]%elem_of_cons. done.
Qed.

Lemma for_state_extends {A} (body : A → LpProblem → result LpProblem)
  (added : A → list (string * LpConstraint)) (P : A → Prop) (l : list A) :
  (∀ x m m', x ∈ l → body x m = Ok m' → P x ∧ extends m m' (added x)) →
  ∀ m m', for_state body l m = Ok m' →
    (∀ x, x ∈ l → P x) ∧ extends m m' (l ≫= added).
Proof.
  induction l as [|a l IH]; intros Hbody m m' Hrun; cbn in Hrun.
  - injection Hrun as <-. split; [by intros x ?%elem_of_nil|].
    apply extends_refl.
  - apply bind_Ok in Hrun as (m1 & H1 & H2).
    apply Hbody in H1 as [HP Hext1]; [|apply list_elem_of_here].
    apply IH in H2 as [HPs Hext2].
    + split; [|exact (extends_trans _ _ _ _ _ Hext1 Hext2)].
      intros x [->|Hx]%elem_of_cons; auto.
    + intros x ? ? Hx. apply Hbody. by apply list_elem_of_further.
Qed.

Section build_facts.

Variable data : Data.

Lemma production_limit_extends s m m' :
  s ∈ sSources data → production_limit data s m = Ok m' →
  is_Some (pSourceProduction data !! s)
  ∧ extends m m' (production_entry data s).
Proof.
  intros Hs. unfold production_limit, production_entry.
  rewrite (mapM_Ok_fmap _ (λ c, quantity (s, c))).
  2:{ intros c Hc. apply vQuantityExchanged_getitem.
      apply elem_of_customers_of in Hc. apply elem_of_pairs. tauto. }
  cbn. unfold getitem. destruct (pSourceProduction data !! s) as [rhs|];
    cbn; [|discriminate].
  intros Hadd%addConstraint_extends. split; [eauto|done].
Qed.

Lemma demand_limit_extends c m m' :
  c ∈ sCustomers data → demand_limit data c m = Ok m' →
  is_Some (pCustomerDemand data !! c) ∧ extends m m' (demand_entry data c).
Proof.
  intros Hc. unfold demand_limit, demand_entry.
  rewrite (mapM_Ok_fmap _ (λ s, quantity (s, c))).
  2:{ intros s Hs. apply vQuantityExchanged_getitem.
      apply elem_of_sources_of in Hs. apply elem_of_pairs. tauto. }
  cbn. unfold getitem. destruct (pCustomerDemand data !! c) as [rhs|];
    cbn; [|discriminate].
  intros Hadd%addConstraint_extends. split; [eauto|done].
Qed.

Lemma fixed_flow_extends s c m m' :
  s ∈ sSources data → c ∈ sCustomers data →
  fixed_flow data s c m = Ok m' →
  ((s, c) ∈ sSources_Customers data →
   is_Some (pFixedTransportation data !! (s, c)))
  ∧ extends m m' (fixed_entry data s c).
Proof.
  intros Hs Hc. unfold fixed_flow, fixed_entry.
  destruct (decide ((s, c) ∈ sSources_Customers data)) as [Hl|Hl].
  - rewrite vQuantityExchanged_getitem by (apply elem_of_pairs; tauto).
    unfold getitem.
    destruct (pFixedTransportation data !! (s, c)) as [f|]; cbn;
      [|discriminate].
    destruct (decide (f ≠ Q2Qc 0)).
    + intros Hadd%addConstraint_extends. split; [eauto|done].
    + intros [= <-]. split; [eauto|apply extends_refl].
  - intros [= <-]. split; [done|apply extends_refl].
Qed.

Lemma build_Ok_built model : build data = Ok model → built data model.
Proof.
  unfold build. rewrite objective_terms_Ok. cbn.
  intros (m1 & H1 & (m2 & H2 & H3)%bind_Ok)%bind_Ok.
  apply (for_state_extends _ (production_entry data)
           (λ s, is_Some (pSourceProduction data !! s))) in H1
    as [HP1 E1]; [|by intros; apply production_limit_extends].
  apply (for_state_extends _ (demand_entry data)
           (λ c, is_Some (pCustomerDemand data !! c))) in H2
    as [HP2 E2]; [|by intros; apply demand_limit_extends].
  apply (for_state_extends _
           (λ s, sCustomers data ≫= fixed_entry data s)
           (λ s, ∀ c, c ∈ sCustomers data →
                   (s, c) ∈ sSources_Customers data →
                   is_Some (pFixedTransportation data !! (s, c)))) in H3
    as [HP3 E3].
  2:{ intros s m m' Hs Hrun.
      apply (for_state_extends _ (fixed_entry data s)
               (λ c, (s, c) ∈ sSources_Customers data →
                     is_Some (pFixedTransportation data !! (s, c))))
        in Hrun; [done|].
      intros; by apply fixed_flow_extends. }
  pose proof (extends_trans _ _ _ _ _ E1 (extends_trans _ _ _ _ _ E2 E3))
    as [Hc Ho Hs Hn].
  split; try done.
  - intros s c (? & ? & ?)%elem_of_pairs. by apply HP3.
  - apply Hn. cbn. apply NoDup_nil_2.
Qed.

End build_facts.

(** ** Reading the built model *)

Lemma Qcle_sub_0 a r : (a - r ≤ Q2Qc 0)%Qc ↔ (a ≤ r)%Qc.
Proof.
  rewrite (Qcplus_le_mono_r (a - r) (Q2Qc 0) r).
  replace (a - r + r)%Qc with a by ring.
  by replace (Q2Qc 0 + r)%Qc with r by ring.
Qed.

Lemma Qcge_sub_0 a r : (Q2Qc 0 ≤ a - r)%Qc ↔ (r ≤ a)%Qc.
Proof.
  rewrite (Qcplus_le_mono_r (Q2Qc 0) (a - r) r).
  replace (a - r + r)%Qc with a by ring.
  by replace (Q2Qc 0 + r)%Qc with r by ring.
Qed.

Lemma Qceq_sub_0 a r : (a - r)%Qc = Q2Qc 0 ↔ a = r.
Proof.
  split; intros Heq.
  - replace a with (a - r + r)%Qc by ring. rewrite Heq. ring.
  - subst a. ring.
Qed.

Lemma named_unique model nm k :
  NoDup (constraints model).*1 → (nm, k) ∈ constraints model →
  named model nm = [k].
Proof.
  unfold named. induction (constraints model) as [|[n c] l IH]; cbn.
  - by intros _ ?%elem_of_nil.
  - intros [Hn Hnd]%NoDup_cons Hin.
    destruct (decide (n = nm)) as [->|Hne].
    + apply elem_of_cons in Hin as [[= ->]|Hin].
      * cbn. f_equal.
        match goal with
        | |- ?F.*2 = [] => destruct F as [|[n' c'] F'] eqn:E; [done|]
        end.
        assert (Hin' : (n', c') ∈ (n', c') :: F') by apply list_elem_of_here.
        rewrite <- E in Hin'. apply list_elem_of_filter in Hin' as [Heq Hin'].
        cbn in Heq. subst n'. exfalso. apply Hn. apply list_elem_of_fmap.
        by exists (nm, c').
      * exfalso. apply Hn. apply list_elem_of_fmap. by exists (nm, k).
    + apply elem_of_cons in Hin as [[= -> ->]|Hin]; [done|]. auto.
Qed.

Lemma value_lpSum_vars x (vs : list LpVariable) :
  value x (lpSum (OVar <$> vs)) = Qcsum (x <$> vs).
Proof. rewrite value_lpSum. by rewrite <- list_fmap_compose. Qed.

Lemma satisfied_le x e rhs : satisfied x (le e rhs) ↔ (value x e ≤ rhs)%Qc.
Proof.
  unfold satisfied, le. rewrite value_compare_with. cbn. apply Qcle_sub_0.
Qed.

Lemma satisfied_ge x e rhs : satisfied x (ge e rhs) ↔ (rhs ≤ value x e)%Qc.
Proof.
  unfold satisfied, ge. rewrite value_compare_with. cbn. apply Qcge_sub_0.
Qed.

Lemma satisfied_eq_var x v rhs : satisfied x (eq_var v rhs) ↔ x v = rhs.
Proof.
  unfold satisfied, eq_var. rewrite value_compare_with. cbn.
  unfold of_var. rewrite value_cons, value_nil, Qceq_sub_0.
  by replace (1 * x v + Q2Qc 0)%Qc with (x v) by ring.
Qed.

Section built_facts.

Variable data : Data.
Variable model : LpProblem.
Hypothesis Hbuilt : built data model.

Lemma built_production_named s :
  s ∈ sSources data →
  ∃ rhs, pSourceProduction data !! s = Some rhs
    ∧ named model (translate ("c01_production_" +:+ s))
      = [le (lpSum (OVar <$> ((λ c, quantity (s, c)) <$> customers_of data s)))
           rhs].
Proof.
  intros Hs. destruct (built_production _ _ Hbuilt s Hs) as [rhs Hrhs].
  exists rhs. split; [done|].
  apply named_unique; [apply Hbuilt|].
  rewrite (built_constraints _ _ Hbuilt), !elem_of_app. left.
  apply list_elem_of_bind. exists s. split; [|done].
  unfold production_entry. rewrite Hrhs. apply list_elem_of_here.
Qed.

Lemma built_demand_named c :
  c ∈ sCustomers data →
  ∃ rhs, pCustomerDemand data !! c = Some rhs
    ∧ named model (translate ("c02_demand_" +:+ c))
      = [ge (lpSum (OVar <$> ((λ s, quantity (s, c)) <$> sources_of data c)))
           rhs].
Proof.
  intros Hc. destruct (built_demand _ _ Hbuilt c Hc) as [rhs Hrhs].
  exists rhs. split; [done|].
  apply named_unique; [apply Hbuilt|].
  rewrite (built_constraints _ _ Hbuilt), !elem_of_app. right. left.
  apply list_elem_of_bind. exists c. split; [|done].
  unfold demand_entry. rewrite Hrhs. apply list_elem_of_here.
Qed.

Lemma built_fixed_named s c f :
  (s, c) ∈ pairs data →
  pFixedTransportation data !! (s, c) = Some f → f ≠ Q2Qc 0 →
  named model (translate ("c03_fixed_" +:+ s +:+ "_" +:+ c))
  = [eq_var (quantity (s, c)) f].
Proof.
  intros (Hs & Hc & Hl)%elem_of_pairs Hf Hne.
  apply named_unique; [apply Hbuilt|].
  rewrite (built_constraints _ _ Hbuilt), !elem_of_app. right. right.
  apply list_elem_of_bind. exists s. split; [|done].
  apply list_elem_of_bind. exists c. split; [|done].
  unfold fixed_entry. rewrite decide_True, Hf, decide_True by done.
  apply list_elem_of_here.
Qed.

Lemma production_names :
  (sSources data ≫= production_entry data).*1
  = (λ s, translate ("c01_production_" +:+ s)) <$> sSources data.
Proof.
  pose proof (built_production _ _ Hbuilt) as Hall.
  induction (sSources data) as [|s l IH]; [done|].
  cbn. rewrite fmap_app, IH.
  2:{ intros s' Hs'. apply Hall. by apply list_elem_of_further. }
  destruct (Hall s) as [rhs Hrhs]; [apply list_elem_of_here|].
  unfold production_entry at 1. by rewrite Hrhs.
Qed.

Lemma demand_names :
  (sCustomers data ≫= demand_entry data).*1
  = (λ c, translate ("c02_demand_" +:+ c)) <$> sCustomers data.
Proof.
  pose proof (built_demand _ _ Hbuilt) as Hall.
  induction (sCustomers data) as [|c l IH]; [done|].
  cbn. rewrite fmap_app, IH.
  2:{ intros c' Hc'. apply Hall. by apply list_elem_of_further. }
  destruct (Hall c) as [rhs Hrhs]; [apply list_elem_of_here|].
  unfold demand_entry at 1. by rewrite Hrhs.
Qed.

Lemma built_NoDup_sSources : NoDup (sSources data).
Proof.
  pose proof (built_NoDup _ _ Hbuilt) as Hnd.
  rewrite (built_constraints _ _ Hbuilt), !fmap_app in Hnd.
  apply NoDup_app in Hnd as (Hnd & _ & _).
  rewrite production_names in Hnd. by apply NoDup_fmap_1 in Hnd.
Qed.

Lemma built_NoDup_sCustomers : NoDup (sCustomers data).
Proof.
  pose proof (built_NoDup _ _ Hbuilt) as Hnd.
  rewrite (built_constraints _ _ Hbuilt), !fmap_app in Hnd.
  apply NoDup_app in Hnd as (_ & _ & Hnd).
  apply NoDup_app in Hnd as (Hnd & _ & _).
  rewrite demand_names in Hnd. by apply NoDup_fmap_1 in Hnd.
Qed.

End built_facts.

(** ** The variables of the expressions *)

Lemma elem_of_addterm v k a ts :
  v ∈ (addterm k a ts).*1 → v = k ∨ v ∈ ts.*1.
Proof.
  induction ts as [|[k' y] ts IH]; cbn.
  - intros [->|[]%elem_of_nil]%elem_of_cons. by left.
  - destruct (decide (k' = k)) as [->|Hne]; cbn.
    + intros [->|Hin]%elem_of_cons; [by left|].
      right. by apply list_elem_of_further.
    + intros [->|Hin]%elem_of_cons; [right; apply list_elem_of_here|].
      destruct (IH Hin) as [->|Hts]; [by left|].
      right. by apply list_elem_of_further.
Qed.

Lemma elem_of_addterms v ts' ts :
  v ∈ (foldl (λ ts vx, addterm vx.1 vx.2 ts) ts ts').*1 →
  v ∈ ts.*1 ∨ v ∈ ts'.*1.
Proof.
  revert ts. induction ts' as [|[k a] ts' IH]; intros ts; cbn; [by left|].
  intros [[->|Hin]%elem_of_addterm|Hin]%IH.
  - right. apply list_elem_of_here.
  - by left.
  - right. by apply list_elem_of_further.
Qed.

Lemma elem_of_addInPlace v e o :
  v ∈ (terms (addInPlace e o)).*1 → v ∈ (terms e).*1 ∨ v ∈ operand_vars o.
Proof.
  destruct o as [w|e']; cbn.
  - intros [->|Hin]%elem_of_addterm; [right; apply list_elem_of_here|by left].
  - apply elem_of_addterms.
Qed.

Lemma elem_of_foldl_addInPlace v ops e :
  v ∈ (terms (foldl addInPlace e ops)).*1 →
  v ∈ (terms e).*1 ∨ ∃ o, o ∈ ops ∧ v ∈ operand_vars o.
Proof.
  revert e. induction ops as [|o ops IH]; intros e; cbn; [by left|].
  intros [[Hin|Hin]%elem_of_addInPlace|(o' & Ho' & Hin)]%IH.
  - by left.
  - right. exists o. split; [apply list_elem_of_here|done].
  - right. exists o'. split; [by apply list_elem_of_further|done].
Qed.

Lemma elem_of_lpSum v ops :
  v ∈ (terms (lpSum ops)).*1 → ∃ o, o ∈ ops ∧ v ∈ operand_vars o.
Proof.
  intros [[]%elem_of_nil|Hin]%elem_of_foldl_addInPlace. done.
Qed.

Lemma elem_of_lpSum_vars v (vs : list LpVariable) :
  v ∈ (terms (lpSum (OVar <$> vs))).*1 → v ∈ vs.
Proof.
  intros (o & (w & -> & Hw)%list_elem_of_fmap & Hin)%elem_of_lpSum.
  cbn in Hin. by apply list_elem_of_singleton in Hin as ->.
Qed.

Lemma elem_of_mul v a w : v ∈ (terms (mul a w)).*1 → v = w.
Proof.
  unfold mul. destruct (decide (a ≠ Q2Qc 0)); cbn.
  - by intros ->%list_elem_of_singleton.
  - by intros ?%elem_of_nil.
Qed.

Lemma mentions_vars e sc :
  mentions e sc ↔ ∃ v, v ∈ (terms e).*1 ∧ ident v = sc.
Proof.
  unfold mentions. split.
  - intros (v & a & Hin & Hid). exists v. split; [|done].
    apply list_elem_of_fmap. by exists (v, a).
  - intros (v & ([v' a] & -> & Hin)%list_elem_of_fmap & Hid). by exists v', a.
Qed.

Section built_variables.

Variable data : Data.
Variable model : LpProblem.
Hypothesis Hbuilt : built data model.

Lemma built_objective_vars obj v :
  objective model = Some obj → v ∈ (terms obj).*1 →
  ∃ sc, sc ∈ pairs data ∧ v = quantity sc.
Proof.
  rewrite (built_objective _ _ Hbuilt). intros [= <-].
  intros (o & (sc & -> & Hsc)%list_elem_of_fmap & Hin)%elem_of_lpSum.
  cbn in Hin. apply elem_of_mul in Hin. by exists sc.
Qed.

Lemma built_constraint_vars nm k v :
  (nm, k) ∈ constraints model → v ∈ (terms (expr k)).*1 →
  ∃ sc, sc ∈ pairs data ∧ v = quantity sc.
Proof.
  rewrite (built_constraints _ _ Hbuilt), !elem_of_app.
  intros [Hin|[Hin|Hin]].
  - apply list_elem_of_bind in Hin as (s & Hin & Hs).
    unfold production_entry in Hin.
    destruct (pSourceProduction data !! s); [|by apply elem_of_nil in Hin].
    apply list_elem_of_singleton in Hin as [= -> ->]. cbn.
    intros (c & -> & Hc)%elem_of_lpSum_vars%list_elem_of_fmap.
    exists (s, c). split; [|done].
    apply elem_of_customers_of in Hc. apply elem_of_pairs. tauto.
  - apply list_elem_of_bind in Hin as (c & Hin & Hc).
    unfold demand_entry in Hin.
    destruct (pCustomerDemand data !! c); [|by apply elem_of_nil in Hin].
    apply list_elem_of_singleton in Hin as [= -> ->]. cbn.
    intros (s & -> & Hs)%elem_of_lpSum_vars%list_elem_of_fmap.
    exists (s, c). split; [|done].
    apply elem_of_sources_of in Hs. apply elem_of_pairs. tauto.
  - apply list_elem_of_bind in Hin as (s & Hin & Hs).
    apply list_elem_of_bind in Hin as (c & Hin & Hc).
    unfold fixed_entry in Hin.
    destruct (decide ((s, c) ∈ sSources_Customers data));
      [|by apply elem_of_nil in Hin].
    destruct (pFixedTransportation data !! (s, c)) as [f|];
      [|by apply elem_of_nil in Hin].
    destruct (decide (f ≠ Q2Qc 0)); [|by apply elem_of_nil in Hin].
    apply list_elem_of_singleton in Hin as [= -> ->]. cbn.
    intros ->%list_elem_of_singleton.
    exists (s, c). split; [|done]. apply elem_of_pairs. tauto.
Qed.

End built_variables.

(** ** The constraint families *)



(** ** The objective and the decision variables *)

Lemma elem_of_insert_by_name v w l :
  v ∈ insert_by_name w l ↔ v = w ∨ v ∈ l.
Proof.
  induction l as [|u l IH]; cbn.
  - rewrite list_elem_of_singleton, elem_of_nil. tauto.
  - destruct (String.leb (name w) (name u)).
    + by rewrite elem_of_cons.
    + rewrite !elem_of_cons, IH. tauto.
Qed.

Lemma elem_of_sort_by_name v l : v ∈ sort_by_name l ↔ v ∈ l.
Proof.
  unfold sort_by_name. induction l as [|u l IH]; cbn; [done|].
  by rewrite elem_of_insert_by_name, IH, elem_of_cons.
Qed.

Lemma elem_of_addVariables v vs known :
  v ∈ addVariables vs known → v ∈ known ∨ v ∈ vs.
Proof.
  unfold addVariables. revert known.
  induction vs as [|w vs IH]; intros known; cbn; [by left|].
  intros [Hin|Hin]%IH; [|right; by apply list_elem_of_further].
  destruct (decide (w ∈ known)); [by left|].
  apply elem_of_app in Hin as [Hin| ->%list_elem_of_singleton]; [by left|].
  right. apply list_elem_of_here.
Qed.

Lemma elem_of_variables_of_constraints v (cs : list (string * LpConstraint))
  known :
  v ∈ foldl (λ known nc, addVariables (terms (expr nc.2)).*1 known) known cs →
  v ∈ known ∨ ∃ nc, nc ∈ cs ∧ v ∈ (terms (expr nc.2)).*1.
Proof.
  revert known. induction cs as [|nc cs IH]; intros known; cbn; [by left|].
  intros [[Hin|Hin]%elem_of_addVariables|(nc' & Hnc' & Hin)]%IH.
  - by left.
  - right. exists nc. split; [apply list_elem_of_here|done].
  - right. exists nc'. split; [by apply list_elem_of_further|done].
Qed.

Lemma built_variables data model v :
  built data model → v ∈ variables model →
  ∃ sc, sc ∈ pairs data ∧ v = quantity sc.
Proof.
  intros Hb. unfold variables. rewrite elem_of_sort_by_name.
  intros [[[]%elem_of_nil|([nm k] & Hin & Hv)]%elem_of_variables_of_constraints
         |Hv]%elem_of_addVariables.
  - by apply (built_constraint_vars data model Hb nm k).
  - destruct (objective model) as [obj|] eqn:Hobj; cbn in Hv.
    + by apply (built_objective_vars data model Hb obj).
    + by apply elem_of_nil in Hv.
Qed.

Lemma costs_Permutation data :
  NoDup (pairs data) →
  (∀ sc, sc ∈ sSources_Customers data → sc ∈ pairs data) →
  map_to_list (pTransportationCosts data)
  ≡ₚ (λ sc, (sc, cost data sc)) <$> pairs data.
Proof.
  intros Hnd Hdecl. apply NoDup_Permutation.
  - apply NoDup_map_to_list.
  - apply NoDup_fmap_2; [by intros ?? [= ->]|done].
  - intros [k v]. rewrite elem_of_map_to_list, list_elem_of_fmap. split.
    + intros Hkv. exists k. unfold cost. rewrite Hkv. split; [done|].
      apply Hdecl. unfold sSources_Customers.
      apply dict_lookup_is_Some. by exists v.
    + intros (sc & [= -> ->] & Hsc). unfold cost.
      destruct sc as [s c]. apply elem_of_pairs in Hsc as (_ & _ & Hl).
      apply (dict_lookup_is_Some (data_pTransportationCosts data)) in Hl
        as [v Hv].
      unfold pTransportationCosts. by rewrite Hv.
Qed.



(** C3: for a pair of a declared source and a declared customer that is
    not an index of the cost table, the built model has no decision
    variable, the objective has no term for it, and no constraint (of any
    family) has a term for it; among the pairs of a declared source and a
    declared customer, those that have a decision variable are exactly the
    indices of the cost table. *)
Theorem C3_lanes_only data model s c :
  build data = Ok model →
  s ∈ sSources data → c ∈ sCustomers data →
  (is_Some (vQuantityExchanged data !! (s, c))
   ↔ is_Some (pTransportationCosts data !! (s, c)))
  ∧ (is_Some (pTransportationCosts data !! (s, c))
     ↔ (s, c) ∈ sSources_Customers data)
  ∧ ((s, c) ∉ sSources_Customers data →
       vQuantityExchanged data !! (s, c) = None
       ∧ (∀ v, v ∈ variables model → ident v ≠ (s, c))
       ∧ (∀ obj, objective model = Some obj → ¬ mentions obj (s, c))
       ∧ (∀ nm k, (nm, k) ∈ constraints model → ¬ mentions (expr k) (s, c))).
Proof.
  intros Hb%build_Ok_built Hs Hc.
  assert (Hkeys : is_Some (pTransportationCosts data !! (s, c))
                  ↔ (s, c) ∈ sSources_Customers data).
  { unfold pTransportationCosts. by rewrite dict_lookup_is_Some. }
  assert (Hpairs : (s, c) ∈ pairs data ↔ (s, c) ∈ sSources_Customers data).
  { rewrite elem_of_pairs. tauto. }
  split; [|split; [done|]].
  - rewrite Hkeys, <- Hpairs, vQuantityExchanged_lookup.
    destruct (decide ((s, c) ∈ pairs data)); [by eauto|].
    split; [by intros [? [=]]|done].
  - intros Hl. rewrite <- Hpairs in Hl. repeat split.
    + rewrite vQuantityExchanged_lookup. by rewrite decide_False.
    + intros v (sc & Hsc & ->)%(built_variables data model _ Hb). cbn.
      by intros ->.
    + intros obj Hobj (v & Hv & Hid)%mentions_vars.
      destruct (built_objective_vars data model Hb obj v Hobj Hv)
        as (sc & Hsc & ->).
      cbn in Hid. by subst sc.
    + intros nm k Hin (v & Hv & Hid)%mentions_vars.
      destruct (built_constraint_vars data model Hb nm k v Hin Hv)
        as (sc & Hsc & ->).
      cbn in Hid. by subst sc.
Qed.

Lemma C3_lanes_only_witness :
  ∃ model,
    build sample_data = Ok model
    ∧ vQuantityExchanged sample_data !! ("Gou", "Ber") = None
    ∧ (∀ v, v ∈ variables model → ident v ≠ ("Gou", "Ber"))
    ∧ (∀ obj, objective model = Some obj → ¬ mentions obj ("Gou", "Ber"))
    ∧ (∀ nm k, (nm, k) ∈ constraints model
               → ¬ mentions (expr k) ("Gou", "Ber")).
Proof.
  eexists. split; [vm_compute; reflexivity|].
  refine (proj2 (proj2 (C3_lanes_only sample_data _ "Gou" "Ber" _ _ _)) _).
  - vm_compute. reflexivity.
  - apply (bool_decide_unpack _). vm_compute. exact I.
  - apply (bool_decide_unpack _). vm_compute. exact I.
  - apply (bool_decide_unpack _). vm_compute. exact I.
Defined.

(** ** The status of the solver *)

Lemma io_two_prints (a b : Line) (k : io unit) :
  (print a ;; print b ;; k) = (a :: b :: k.1, k.2).
Proof. by destruct k as [o [|]]. Qed.



(** ** Lanes without a fixed-flow item *)

Lemma built_equality_constraint data model nm k :
  built data model → (nm, k) ∈ constraints model →
  sense k = LpConstraintEQ →
  ∃ s c f, pFixedTransportation data !! (s, c) = Some f ∧ f ≠ Q2Qc 0
           ∧ k = eq_var (quantity (s, c)) f.
Proof.
  intros Hb. rewrite (built_constraints _ _ Hb), !elem_of_app.
  intros [Hin|[Hin|Hin]] Hsense.
  - apply list_elem_of_bind in Hin as (s & Hin & Hs).
    unfold production_entry in Hin.
    destruct (pSourceProduction data !! s); [|by apply elem_of_nil in Hin].
    by apply list_elem_of_singleton in Hin as [= -> ->].
  - apply list_elem_of_bind in Hin as (c & Hin & Hc).
    unfold demand_entry in Hin.
    destruct (pCustomerDemand data !! c); [|by apply elem_of_nil in Hin].
    by apply list_elem_of_singleton in Hin as [= -> ->].
  - apply list_elem_of_bind in Hin as (s & Hin & Hs).
    apply list_elem_of_bind in Hin as (c & Hin & Hc).
    unfold fixed_entry in Hin.
    destruct (decide ((s, c) ∈ sSources_Customers data));
      [|by apply elem_of_nil in Hin].
    destruct (pFixedTransportation data !! (s, c)) as [f|] eqn:Hf;
      [|by apply elem_of_nil in Hin].
    destruct (decide (f ≠ Q2Qc 0)); [|by apply elem_of_nil in Hin].
    apply list_elem_of_singleton in Hin as [= -> ->]. by exists s, c, f.
Qed.




(** ** The sensitivity interpreter *)

Lemma Qclt_0_asym p : (p < Q2Qc 0)%Qc → ¬ (Q2Qc 0 < p)%Qc.
Proof.
  intros Hneg Hpos. apply (irreflexivity Qclt p). by apply (Qclt_trans _ (Q2Qc 0)).
Qed.

(** The three-way test on the sign of a dual value. *)
Lemma sign_dispatch {A} (p : Qc) (neg pos zero : A) :
  ((p < Q2Qc 0)%Qc →
   (if decide (p < Q2Qc 0)%Qc then neg
    else if decide (Q2Qc 0 < p)%Qc then pos else zero) = neg)
  ∧ ((Q2Qc 0 < p)%Qc →
     (if decide (p < Q2Qc 0)%Qc then neg
      else if decide (Q2Qc 0 < p)%Qc then pos else zero) = pos)
  ∧ (p = Q2Qc 0 →
     (if decide (p < Q2Qc 0)%Qc then neg
      else if decide (Q2Qc 0 < p)%Qc then pos else zero) = zero).
Proof.
  repeat split.
  - intros Hneg. by rewrite decide_True.
  - intros Hpos. rewrite decide_False, decide_True; [done..|].
    intros Hneg. by apply (Qclt_0_asym p).
  - intros ->. rewrite !decide_False; [done|apply (irreflexivity Qclt)..].
Qed.

Lemma print_constraints_unfold nm p sources n :
  constraint_number nm = Ok n →
  print_conclusions_constraints_sensibility_analysis nm p sources
  = if decide (n ≤ 2) then
      ([if decide (p < Q2Qc 0)%Qc then
          [PStr "The total transportation cost would be reduced by";
           PNum (Qcabs p);
           PStr (if decide (suffix 3 nm ∈ sources)
                 then "euros for each additional ton available in"
                 else "euros for each additional ton supply at");
           PStr (suffix 3 nm)]
        else if decide (Q2Qc 0 < p)%Qc then
          [PStr "The total transportation cost would be increased in";
           PNum p;
           PStr (if decide (suffix 3 nm ∈ sources)
                 then "euros for each additional ton available in"
                 else "euros for each additional ton supply at");
           PStr (suffix 3 nm)]
        else
          [PStr (if decide (suffix 3 nm ∈ sources)
                 then "The total transportation cost would remain equal for each additional ton available in"
                 else "The total transportation cost would remain equal for each additional ton supply at");
           PStr (suffix 3 nm)]],
       Ok tt)
    else ([], Ok tt).
Proof.
  unfold constraint_number, print_conclusions_constraints_sensibility_analysis.
  intros ->. cbn.
  destruct (decide (n ≤ 2)) as [Hn|Hn].
  - destruct (decide (suffix 3 nm ∈ sources)) as [Hloc|Hloc].
    + rewrite decide_True by done.
      by destruct (decide (p < Q2Qc 0)%Qc), (decide (Q2Qc 0 < p)%Qc).
    + rewrite decide_False by tauto.
      by destruct (decide (p < Q2Qc 0)%Qc), (decide (Q2Qc 0 < p)%Qc).
  - by rewrite decide_False by tauto.
Qed.

Lemma print_constraints_no_number nm p sources e :
  constraint_number nm = Raise e →
  print_conclusions_constraints_sensibility_analysis nm p sources
  = ([], Raise e).
Proof.
  unfold constraint_number, print_conclusions_constraints_sensibility_analysis.
  by intros ->.
Qed.

Lemma print_variables_unfold nm r source customer rest :
  findall nm = source :: customer :: rest →
  print_conclusions_variables_sensibility_analysis nm r
  = ([if decide (r < Q2Qc 0)%Qc then
        [PStr "The total transportation cost would be reduced by";
         PNum (Qcabs r);
         PStr "euros for each ton supply from";
         PStr source; PStr "to"; PStr customer]
      else if decide (Q2Qc 0 < r)%Qc then
        [PStr "The total cost would be increased in";
         PNum r;
         PStr "euros for each ton supply from";
         PStr source; PStr "to"; PStr customer]
      else
        [PStr "The total transportation cost would remain equal for each ton supply from";
         PStr source; PStr "to"; PStr customer]],
     Ok tt).
Proof.
  unfold print_conclusions_variables_sensibility_analysis.
  intros ->. cbn.
  by destruct (decide (r < Q2Qc 0)%Qc), (decide (Q2Qc 0 < r)%Qc).
Qed.

Lemma print_variables_too_few nm r :
  (findall nm = [] ∨ ∃ source, findall nm = [source]) →
  print_conclusions_variables_sensibility_analysis nm r
  = ([], Raise IndexError).
Proof.
  unfold print_conclusions_variables_sensibility_analysis.
  by intros [->|[source ->]].
Qed.

(** C7: for a constraint whose family ordinal is at most 2 and for a
    variable whose name carries its two codes, the conclusion follows the
    sign of the dual value: a negative value gives "would be reduced by"
    with the absolute value, a positive value gives "would be increased in"
    with the value, and zero gives "would remain equal". *)
Theorem C7_direction_matches_sign :
  (∀ nm p sources n,
     constraint_number nm = Ok n → n ≤ 2 →
     ∃ place,
       place = (if decide (suffix 3 nm ∈ sources)
                then "additional ton available in"
                else "additional ton supply at")
       ∧ ((p < Q2Qc 0)%Qc →
          print_conclusions_constraints_sensibility_analysis nm p sources
          = ([[PStr "The total transportation cost would be reduced by";
               PNum (Qcabs p);
               PStr ("euros for each " +:+ place);
               PStr (suffix 3 nm)]], Ok tt))
       ∧ ((Q2Qc 0 < p)%Qc →
          print_conclusions_constraints_sensibility_analysis nm p sources
          = ([[PStr "The total transportation cost would be increased in";
               PNum p;
               PStr ("euros for each " +:+ place);
               PStr (suffix 3 nm)]], Ok tt))
       ∧ (p = Q2Qc 0 →
          print_conclusions_constraints_sensibility_analysis nm p sources
          = ([[PStr ("The total transportation cost would remain equal for each "
                     +:+ place);
               PStr (suffix 3 nm)]], Ok tt)))
  ∧ (∀ nm r source customer rest,
       findall nm = source :: customer :: rest →
       ((r < Q2Qc 0)%Qc →
        print_conclusions_variables_sensibility_analysis nm r
        = ([[PStr "The total transportation cost would be reduced by";
             PNum (Qcabs r);
             PStr "euros for each ton supply from";
             PStr source; PStr "to"; PStr customer]], Ok tt))
       ∧ ((Q2Qc 0 < r)%Qc →
          print_conclusions_variables_sensibility_analysis nm r
          = ([[PStr "The total cost would be increased in";
               PNum r;
               PStr "euros for each ton supply from";
               PStr source; PStr "to"; PStr customer]], Ok tt))
       ∧ (r = Q2Qc 0 →
          print_conclusions_variables_sensibility_analysis nm r
          = ([[PStr "The total transportation cost would remain equal for each ton supply from";
               PStr source; PStr "to"; PStr customer]], Ok tt))).
Proof.
  split.
  - intros nm p sources n Hn Hle. eexists. split; [reflexivity|].
    rewrite (print_constraints_unfold nm p sources n Hn).
    rewrite decide_True by done.
    repeat split; intros Hp;
      [rewrite (proj1 (sign_dispatch p _ _ _) Hp)
      |rewrite (proj1 (proj2 (sign_dispatch p _ _ _)) Hp)
      |rewrite (proj2 (proj2 (sign_dispatch p _ _ _)) Hp)];
      by destruct (decide (suffix 3 nm ∈ sources)).
  - intros nm r source customer rest Hfind.
    rewrite (print_variables_unfold nm r source customer rest Hfind).
    repeat split; intros Hr;
      [by rewrite (proj1 (sign_dispatch r _ _ _) Hr)
      |by rewrite (proj1 (proj2 (sign_dispatch r _ _ _)) Hr)
      |by rewrite (proj2 (proj2 (sign_dispatch r _ _ _)) Hr)].
Qed.

Lemma C7_direction_matches_sign_witness :
  print_conclusions_constraints_sensibility_analysis
    "c02_demand_Ber" (q 27 10) ["Gou"; "Arn"]
  = ([[PStr "The total transportation cost would be increased in";
       PNum (q 27 10);
       PStr "euros for each additional ton supply at";
       PStr "Ber"]], Ok tt)
  ∧ print_conclusions_variables_sensibility_analysis
      "quantity_in_tons_('Gou',_'Ams')" (q (-1) 2)
    = ([[PStr "The total transportation cost would be reduced by";
         PNum (Qcabs (q (-1) 2));
         PStr "euros for each ton supply from";
         PStr "Gou"; PStr "to"; PStr "Ams"]], Ok tt).
Proof.
  split.
  - destruct (proj1 C7_direction_matches_sign
                "c02_demand_Ber" (q 27 10) ["Gou"; "Arn"] 2)
      as (place & -> & _ & Hpos & _); [reflexivity|lia|].
    apply Hpos. reflexivity.
  - apply (proj2 C7_direction_matches_sign
             "quantity_in_tons_('Gou',_'Ams')" (q (-1) 2) "Gou" "Ams" []);
      reflexivity.
Defined.

(** C8: a constraint of family 3 gets no conclusion, whatever its shadow
    price; a line is printed only for a family ordinal of at most 2, and of
    the names that the builder gives, those of families 1 and 2 get one
    line and those of family 3 none. *)
Theorem C8_fixed_flow_silent :
  (∀ nm p sources,
     constraint_number nm = Ok 3 →
     print_conclusions_constraints_sensibility_analysis nm p sources
     = ([], Ok tt))
  ∧ (∀ s c p sources,
       print_conclusions_constraints_sensibility_analysis
         (translate ("c03_fixed_" +:+ s +:+ "_" +:+ c)) p sources
       = ([], Ok tt))
  ∧ (∀ s p sources,
       ∃ l, print_conclusions_constraints_sensibility_analysis
              (translate ("c01_production_" +:+ s)) p sources
            = ([l], Ok tt))
  ∧ (∀ c p sources,
       ∃ l, print_conclusions_constraints_sensibility_analysis
              (translate ("c02_demand_" +:+ c)) p sources
            = ([l], Ok tt))
  ∧ (∀ nm p sources l,
       l ∈ (print_conclusions_constraints_sensibility_analysis
              nm p sources).1 →
       ∃ n, constraint_number nm = Ok n ∧ n ≤ 2).
Proof.
  assert (Hsilent : ∀ nm p sources,
            constraint_number nm = Ok 3 →
            print_conclusions_constraints_sensibility_analysis nm p sources
            = ([], Ok tt)).
  { intros nm p sources Hn.
    by rewrite (print_constraints_unfold nm p sources 3 Hn). }
  split; [done|]. split; [|split; [|split]].
  - intros s c p sources. by apply Hsilent.
  - intros s p sources. eexists.
    by rewrite (print_constraints_unfold _ p sources 1).
  - intros c p sources. eexists.
    by rewrite (print_constraints_unfold _ p sources 2).
  - intros nm p sources l.
    destruct (constraint_number nm) as [n|e] eqn:Hn.
    + rewrite (print_constraints_unfold nm p sources n Hn).
      destruct (decide (n ≤ 2)); [by eauto|]. by intros ?%elem_of_nil.
    + rewrite (print_constraints_no_number nm p sources e Hn).
      by intros ?%elem_of_nil.
Qed.

Lemma C8_fixed_flow_silent_witness :
  print_conclusions_constraints_sensibility_analysis
    "c03_fixed_Arn_Ams" (q 3 5) ["Gou"; "Arn"]
  = ([], Ok tt).
Proof.
  apply (proj1 C8_fixed_flow_silent "c03_fixed_Arn_Ams"). reflexivity.
Defined.

(** ** Which narrative a constraint gets *)

Lemma length_append (a b : string) :
  String.length (a +:+ b) = String.length a + String.length b.
Proof. induction a as [|x a IH]; simpl; [done|]. by f_equal. Qed.

Lemma substring_0_length (s : string) :
  String.substring 0 (String.length s) s = s.
Proof. induction s as [|x s IH]; simpl; [done|]. by f_equal. Qed.

Lemma substring_skip (a b : string) m :
  String.substring (String.length a) m (a +:+ b) = String.substring 0 m b.
Proof. induction a as [|x a IH]; simpl; [done|]. apply IH. Qed.

Lemma suffix_append (a b : string) : suffix (String.length b) (a +:+ b) = b.
Proof.
  unfold suffix. rewrite length_append.
  replace (String.length a + String.length b - String.length b)
    with (String.length a) by lia.
  by rewrite substring_skip, substring_0_length.
Qed.

Lemma translate_append (a b : string) :
  translate (a +:+ b) = translate a +:+ translate b.
Proof.
  unfold translate. induction a as [|x a IH]; simpl; [done|].
  rewrite IH. reflexivity.
Qed.

Lemma suffix_demand_name c :
  String.length c = 3 → translate c = c →
  suffix 3 (translate ("c02_demand_" +:+ c)) = c.
Proof.
  intros Hlen Htr. rewrite translate_append, Htr, <- Hlen.
  apply suffix_append.
Qed.

Ltac narrative_side :=
  first
    [ by intros _
    | by intros (t & [= <-] & Hends); vm_compute in Hends
    | by intros _; eexists; (split; [reflexivity|vm_compute; reflexivity])
    | by intros Hmem; contradiction ].

Ltac narrative_cases :=
  repeat match goal with
    | |- context [decide ?P] => destruct (decide P)
    end;
  (cbn; split; narrative_side).



(** ** Which rows get a conclusion *)

Lemma for_each_Ok {A} (body : A → io unit) (l : list A) :
  (∀ x, x ∈ l → (body x).2 = Ok tt) →
  for_each body l = (l ≫= (λ x, (body x).1), Ok tt).
Proof.
  induction l as [|a l IH]; intros Hok; [done|].
  cbn [for_each]. rewrite IH.
  2:{ intros x Hx. apply Hok. by apply list_elem_of_further. }
  specialize (Hok a (list_elem_of_here _ _)).
  destruct (body a) as [out [[]|e]] eqn:Hbody; [|discriminate].
  cbn. by rewrite Hbody.
Qed.

Lemma bind_filter {A B} (P : A → Prop) `{∀ x, Decision (P x)}
  (f : A → list B) (l : list A) :
  filter P l ≫= f = l ≫= (λ x, if decide (P x) then f x else []).
Proof.
  induction l as [|a l IH]; [done|].
  rewrite filter_cons, (bind_cons _ a l), <- IH.
  by destruct (decide (P a)).
Qed.

Lemma select_zero_apply_Ok {R} (col : R → Qc) (body : R → io unit)
  (rows : list R) :
  rows ≠ [] →
  (∀ row, row ∈ rows → col row = Q2Qc 0 → (body row).2 = Ok tt) →
  select_zero_apply col body rows
  = (rows ≫= (λ row, if decide (col row = Q2Qc 0) then (body row).1 else []),
     Ok tt).
Proof.
  intros Hne Hok. unfold select_zero_apply.
  destruct rows as [|row rows]; [done|].
  rewrite for_each_Ok, bind_filter; [done|].
  intros x [Hzero Hin]%list_elem_of_filter. by apply Hok.
Qed.

(** C6, as the code has it: the conclusions printed for a frame are those
    of its rows, in order; a constraint row gets a conclusion exactly when
    its slack is 0 and its name carries a family ordinal of at most 2 (so a
    binding constraint of family 3 gets none); a variable row whose name
    carries two quoted three-character codes gets a conclusion exactly
    when its value is 0, and a row with another value never gets one. *)
Theorem C6_binding_rows_and_zero_variables :
  (∀ rows sources,
     rows ≠ [] →
     (∀ row, row ∈ rows → row_Slack row = Q2Qc 0 →
             ∃ n, constraint_number (row_Constraint row) = Ok n) →
     conclusions_constraints rows sources
     = (rows ≫= statements_for_constraint sources, Ok tt))
  ∧ (∀ sources row,
       (∃ l, statements_for_constraint sources row = [l])
       ↔ (row_Slack row = Q2Qc 0
          ∧ ∃ n, constraint_number (row_Constraint row) = Ok n ∧ n ≤ 2))
  ∧ (∀ sources row,
       statements_for_constraint sources row = []
       ∨ ∃ l, statements_for_constraint sources row = [l])
  ∧ (∀ rows,
       rows ≠ [] →
       (∀ row, row ∈ rows → row_Value row = Q2Qc 0 →
               ∃ s c rest, findall (row_Variable row) = s :: c :: rest) →
       conclusions_variables rows
       = (rows ≫= statements_for_variable, Ok tt))
  ∧ (∀ row,
       (∃ s c rest, findall (row_Variable row) = s :: c :: rest) →
       ((∃ l, statements_for_variable row = [l]) ↔ row_Value row = Q2Qc 0))
  ∧ (∀ row, row_Value row ≠ Q2Qc 0 → statements_for_variable row = []).
Proof.
  assert (Hcases : ∀ sources row,
    (row_Slack row = Q2Qc 0
     ∧ (∃ n, constraint_number (row_Constraint row) = Ok n ∧ n ≤ 2)
     ∧ ∃ l, statements_for_constraint sources row = [l])
    ∨ (¬ (row_Slack row = Q2Qc 0
          ∧ ∃ n, constraint_number (row_Constraint row) = Ok n ∧ n ≤ 2)
       ∧ statements_for_constraint sources row = [])).
  { intros sources row. unfold statements_for_constraint.
    destruct (decide (row_Slack row = Q2Qc 0)) as [Hz|Hz]; [|right; tauto].
    destruct (constraint_number (row_Constraint row)) as [n|e] eqn:Hn.
    - rewrite (print_constraints_unfold _ _ sources n Hn).
      destruct (decide (n ≤ 2)) as [Hle|Hgt].
      + left. eauto 6.
      + right. split; [|done]. intros (_ & n' & [= <-] & Hle). done.
    - rewrite (print_constraints_no_number _ _ sources e Hn).
      right. split; [|done]. by intros (_ & n' & [=] & _). }
  split; [|split; [|split; [|split; [|split]]]].
  - intros rows sources Hne Hparse. unfold conclusions_constraints.
    rewrite select_zero_apply_Ok; [done..|].
    intros row Hin Hz. destruct (Hparse row Hin Hz) as [n Hn].
    rewrite (print_constraints_unfold _ _ sources n Hn).
    by destruct (decide (n ≤ 2)).
  - intros sources row.
    destruct (Hcases sources row) as [(Hz & Hn & Hl)|[Hno Hnil]]; [tauto|].
    rewrite Hnil. split; [by intros [l [=]]|done].
  - intros sources row.
    destruct (Hcases sources row) as [(_ & _ & Hl)|[_ Hnil]]; [by right|by left].
  - intros rows Hne Hparse. unfold conclusions_variables.
    rewrite select_zero_apply_Ok; [done..|].
    intros row Hin Hz. destruct (Hparse row Hin Hz) as (s & c & rest & Hfind).
    by rewrite (print_variables_unfold _ _ s c rest Hfind).
  - intros row (s & c & rest & Hfind). unfold statements_for_variable.
    destruct (decide (row_Value row = Q2Qc 0)) as [Hz|Hz].
    + rewrite (print_variables_unfold _ _ s c rest Hfind). cbn.
      split; [done|eauto].
    + split; [by intros [l [=]]|done].
  - intros row Hz. unfold statements_for_variable. by rewrite decide_False.
Qed.

Lemma C6_binding_rows_and_zero_variables_witness :
  conclusions_constraints
    [mkConstraintRow "c01_production_Gou" (q 0 1) (q (-1) 5);
     mkConstraintRow "c01_production_Arn" (q 2 1) (q 0 1);
     mkConstraintRow "c03_fixed_Arn_Ams" (q 0 1) (q 3 5)]
    ["Gou"; "Arn"]
  = ([[PStr "The total transportation cost would be reduced by";
       PNum (Qcabs (q (-1) 5));
       PStr "euros for each additional ton available in"; PStr "Gou"]],
     Ok tt)
  ∧ conclusions_variables
      [mkVariableRow "quantity_in_tons_('Arn',_'Ams')" (q 0 1) (q 3 5);
       mkVariableRow "quantity_in_tons_('Gou',_'Ams')" (q 4 1) (q 0 1)]
    = ([[PStr "The total cost would be increased in";
         PNum (q 3 5);
         PStr "euros for each ton supply from";
         PStr "Arn"; PStr "to"; PStr "Ams"]],
       Ok tt).
Proof.
  split.
  - rewrite (proj1 C6_binding_rows_and_zero_variables); [reflexivity|done|].
    intros row Hin _. revert row Hin. apply Forall_forall.
    repeat constructor; cbn; eauto.
  - rewrite (proj1 (proj2 (proj2 (proj2 C6_binding_rows_and_zero_variables))));
      [reflexivity|done|].
    intros row Hin _. revert row Hin. apply Forall_forall.
    repeat constructor; cbn; eauto.
Defined.

(** C6 fails as stated: the fixed-flow constraint that the builder adds for
    the sample is an equality, hence binding, and a row for it with slack 0
    gets no conclusion; and a variable with value 0 whose name was built
    from a five-character code gets none either, [IndexError] is raised. *)
Lemma C6_counterexample :
  (∃ model, build sample_data = Ok model
     ∧ named model "c03_fixed_Arn_Ams"
       = [eq_var (quantity ("Arn", "Ams")) (q 1 1)])
  ∧ conclusions_constraints
      [mkConstraintRow "c03_fixed_Arn_Ams" (q 0 1) (q 3 5)] ["Gou"; "Arn"]
    = ([], Ok tt)
  ∧ conclusions_variables
      [mkVariableRow (name (quantity ("Gouda", "Ams"))) (q 0 1) (q 3 5)]
    = ([], Raise IndexError).
Proof.
  split; [|split].
  - eexists. split; vm_compute; reflexivity.
  - vm_compute. reflexivity.
  - vm_compute. reflexivity.
Qed.

(** ** Variable names and their parsing *)

Lemma findall_skip prev a s1 :
  prev ≠ Some apostrophe →
  findall_from prev (String a s1) = findall_from (Some a) s1.
Proof.
  intros Hprev. cbn [findall_from].
  destruct s1 as [|b [|c [|x s4]]]; try done.
  by rewrite bool_decide_eq_false_2.
Qed.

Lemma findall_no_lookahead prev a b c x s4 :
  x ≠ apostrophe →
  findall_from prev (String a (String b (String c (String x s4))))
  = findall_from (Some a) (String b (String c (String x s4))).
Proof.
  intros Hx. cbn [findall_from].
  rewrite (bool_decide_eq_false_2 (x = apostrophe)) by done.
  by rewrite andb_false_r.
Qed.

Lemma findall_match a b c s4 :
  dot a = true → dot b = true → dot c = true →
  findall_from (Some apostrophe)
    (String a (String b (String c (String apostrophe s4))))
  = String a (String b (chr c))
    :: findall_from (Some c) (String apostrophe s4).
Proof.
  intros Ha Hb Hc. cbn [findall_from].
  rewrite Ha, Hb, Hc.
  rewrite (bool_decide_eq_true_2 (Some apostrophe = Some apostrophe)) by done.
  by rewrite (bool_decide_eq_true_2 (apostrophe = apostrophe)) by done.
Qed.

Lemma plain_dot a : plain a → dot a = true.
Proof.
  intros (Hp & _). unfold dot. apply bool_decide_eq_true_2.
  intros ->. discriminate Hp.
Qed.

Lemma plain_trans a : plain a → trans a = a.
Proof. intros (_ & _ & _ & Hc). unfold trans. by rewrite Hc. Qed.

Lemma plain_repr_char a : plain a → repr_char apostrophe a = chr a.
Proof.
  intros (Hp & Ha & Hb & _). unfold repr_char.
  rewrite decide_False by tauto.
  rewrite !decide_False; [by rewrite Hp|by intros ->..].
Qed.

Lemma plain_code_repr s :
  plain_code s → repr s = String apostrophe (s +:+ chr apostrophe).
Proof.
  intros (a & b & c & -> & Ha & Hb & Hc). unfold repr, repr_quote.
  assert (Hno : contains apostrophe (String a (String b (chr c))) = false).
  { cbn. destruct Ha as (_ & Ha & _), Hb as (_ & Hb & _), Hc as (_ & Hc & _).
    by rewrite !decide_False by congruence. }
  rewrite Hno. cbn [andb concat_map chr].
  by rewrite !plain_repr_char.
Qed.

Lemma plain_code_translate s : plain_code s → translate s = s.
Proof.
  intros (a & b & c & -> & Ha & Hb & Hc). unfold translate. cbn.
  by rewrite !plain_trans.
Qed.

Lemma plain_code_name s c :
  plain_code s → plain_code c →
  name (quantity (s, c))
  = "quantity_in_tons_(" +:+ String apostrophe s +:+ String apostrophe ",_"
    +:+ String apostrophe c +:+ String apostrophe ")".
Proof.
  intros Hs Hc. unfold quantity, new_variable, str_pair. cbn [name fst snd].
  rewrite (plain_code_repr s Hs), (plain_code_repr c Hc).
  rewrite !translate_append.
  change (translate (String apostrophe (s +:+ chr apostrophe)))
    with (String apostrophe (translate (s +:+ chr apostrophe))).
  change (translate (String apostrophe (c +:+ chr apostrophe)))
    with (String apostrophe (translate (c +:+ chr apostrophe))).
  rewrite !translate_append, (plain_code_translate s Hs),
    (plain_code_translate c Hc).
  destruct Hs as (a1 & a2 & a3 & -> & _), Hc as (b1 & b2 & b3 & -> & _).
  reflexivity.
Qed.

Ltac not_apostrophe :=
  first [ by (intros [= ?]) | by (intros [= ->]) | by vm_compute | congruence ].

(** C9, as the code has it: for a lane whose two codes are three plain
    characters each (printable, no apostrophe, no backslash, none of the
    characters that PuLP replaces in names), the name that the builder
    gives to the variable of the lane is parsed back into the two codes. *)
Theorem C9_name_round_trip s c :
  plain_code s → plain_code c →
  findall (name (quantity (s, c))) = [s; c]
  ∧ ∀ data v, vQuantityExchanged data !! (s, c) = Some v →
      findall (name v) = [s; c].
Proof.
  intros Hs Hc.
  assert (Hfind : findall (name (quantity (s, c))) = [s; c]).
  { rewrite (plain_code_name s c Hs Hc).
    destruct Hs as (a1 & a2 & a3 & -> & Ha1 & Ha2 & Ha3).
    destruct Hc as (b1 & b2 & b3 & -> & Hb1 & Hb2 & Hb3).
    pose proof Ha3 as (_ & Ha3' & _). pose proof Hb1 as (_ & Hb1' & _).
    pose proof Hb3 as (_ & Hb3' & _).
    unfold findall. cbv [String.append chr].
    do 19 (rewrite findall_skip by not_apostrophe).
    rewrite findall_match by (by apply plain_dot).
    rewrite findall_skip by congruence.
    rewrite findall_no_lookahead by done.
    do 2 (rewrite findall_skip by not_apostrophe).
    rewrite findall_match by (by apply plain_dot).
    rewrite findall_skip by congruence.
    reflexivity. }
  split; [done|].
  intros data v. rewrite vQuantityExchanged_lookup.
  destruct (decide ((s, c) ∈ pairs data)); [|discriminate].
  by intros [= <-].
Qed.

Lemma C9_name_round_trip_witness :
  findall (name (quantity ("Gou", "Lon"))) = ["Gou"; "Lon"].
Proof.
  apply (C9_name_round_trip "Gou" "Lon");
    (eexists _, _, _; split; [reflexivity|]);
    repeat split; (reflexivity || (intros Heq; discriminate Heq)).
Defined.

(** C9 fails as stated: the codes A-B and Ams have three characters each,
    the variable of the lane is named with an underscore in place of the
    hyphen, and parsing the name gives a code that is not the source. *)
Lemma C9_counterexample :
  String.length "A-B" = 3 ∧ String.length "Ams" = 3
  ∧ vQuantityExchanged hyphen_data !! ("A-B", "Ams")
    = Some (quantity ("A-B", "Ams"))
  ∧ name (quantity ("A-B", "Ams")) = "quantity_in_tons_('A_B',_'Ams')"
  ∧ findall (name (quantity ("A-B", "Ams"))) = ["A_B"; "Ams"]
  ∧ findall (name (quantity ("A-B", "Ams"))) ≠ ["A-B"; "Ams"].
Proof.
  repeat split; try (vm_compute; reflexivity).
  vm_compute. intros Heq. discriminate Heq.
Qed.

(** * Further properties of the builder *)

(** ** When the builder returns a model *)

Lemma add_constraints_nil m : add_constraints [] m = m.
Proof. destruct m. unfold add_constraints. cbn. by rewrite app_nil_r. Qed.

Lemma add_constraints_app es1 es2 m :
  add_constraints es2 (add_constraints es1 m) = add_constraints (es1 ++ es2) m.
Proof. unfold add_constraints. cbn. by rewrite app_assoc. Qed.

Lemma addConstraint_fresh c nm m :
  translate nm ∉ (constraints m).*1 →
  addConstraint c nm m = Ok (add_constraints [(translate nm, c)] m).
Proof. intros Hfresh. unfold addConstraint. by rewrite decide_False. Qed.

Lemma for_state_adds {A} (body : A → LpProblem → result LpProblem)
  (added : A → list (string * LpConstraint)) (l : list A) :
  (∀ x m, x ∈ l → NoDup ((constraints m).*1 ++ (added x).*1) →
          body x m = Ok (add_constraints (added x) m)) →
  ∀ m, NoDup ((constraints m).*1 ++ (l ≫= added).*1) →
       for_state body l m = Ok (add_constraints (l ≫= added) m).
Proof.
  induction l as [|a l IH]; intros Hbody m Hnd.
  - cbn. by rewrite add_constraints_nil.
  - rewrite bind_cons, fmap_app, app_assoc in Hnd.
    cbn [for_state]. rewrite Hbody; [|apply list_elem_of_here|].
    2:{ by apply NoDup_app in Hnd as (Hnd & _ & _). }
    cbn. rewrite IH.
    + by rewrite add_constraints_app.
    + intros x m' Hx. apply Hbody. by apply list_elem_of_further.
    + cbn. by rewrite fmap_app.
Qed.

Lemma for_state_ext {A S} (body body' : A → S → result S) (l : list A) :
  (∀ x st, x ∈ l → body x st = body' x st) →
  ∀ st, for_state body l st = for_state body' l st.
Proof.
  induction l as [|a l IH]; intros Hext st; [done|].
  cbn. rewrite Hext by apply list_elem_of_here.
  destruct (body' a st) as [st'|e]; cbn; [|done].
  apply IH. intros x st'' Hx. apply Hext. by apply list_elem_of_further.
Qed.

Section complete_tables.

Variable data : Data.
Hypothesis Hcomplete : tables_complete data.

Lemma complete_production_entry s :
  s ∈ sSources data →
  ∃ k, production_entry data s = [(production_name s, k)].
Proof.
  intros Hs. destruct Hcomplete as (Hp & _ & _).
  destruct (Hp s Hs) as [rhs Hrhs]. unfold production_entry.
  rewrite Hrhs. by eexists.
Qed.

Lemma complete_demand_entry c :
  c ∈ sCustomers data →
  ∃ k, demand_entry data c = [(demand_name c, k)].
Proof.
  intros Hc. destruct Hcomplete as (_ & Hd & _).
  destruct (Hd c Hc) as [rhs Hrhs]. unfold demand_entry.
  rewrite Hrhs. by eexists.
Qed.

Lemma complete_production_names (l : list string) :
  (∀ s, s ∈ l → s ∈ sSources data) →
  (l ≫= production_entry data).*1 = production_name <$> l.
Proof.
  induction l as [|s l IH]; intros Hl; [done|].
  rewrite bind_cons, fmap_app, IH.
  2:{ intros s' Hs'. apply Hl. by apply list_elem_of_further. }
  destruct (complete_production_entry s) as [k ->]; [|done].
  apply Hl, list_elem_of_here.
Qed.

Lemma complete_demand_names (l : list string) :
  (∀ c, c ∈ l → c ∈ sCustomers data) →
  (l ≫= demand_entry data).*1 = demand_name <$> l.
Proof.
  induction l as [|c l IH]; intros Hl; [done|].
  rewrite bind_cons, fmap_app, IH.
  2:{ intros c' Hc'. apply Hl. by apply list_elem_of_further. }
  destruct (complete_demand_entry c) as [k ->]; [|done].
  apply Hl, list_elem_of_here.
Qed.

Lemma complete_fixed_entry s c :
  s ∈ sSources data → c ∈ sCustomers data →
  (fixed_entry data s c).*1
  = fixed_name
      <$> filter (λ sc, default (Q2Qc 0) (pFixedTransportation data !! sc)
                        ≠ Q2Qc 0)
            ((λ c, (s, c))
               <$> filter (λ c, (s, c) ∈ sSources_Customers data) [c]).
Proof.
  intros Hs Hc. destruct Hcomplete as (_ & _ & Hf). unfold fixed_entry.
  rewrite filter_cons, filter_nil.
  destruct (decide ((s, c) ∈ sSources_Customers data)) as [Hl|Hl]; [|done].
  destruct (Hf (s, c)) as [f Hfix]; [apply elem_of_pairs; tauto|].
  rewrite Hfix. cbn [fmap list_fmap]. rewrite filter_cons, filter_nil.
  rewrite Hfix. cbn [default]. change (id f) with f.
  by destruct (decide (f ≠ Q2Qc 0)).
Qed.

Lemma complete_fixed_names_of s (l : list string) :
  s ∈ sSources data → (∀ c, c ∈ l → c ∈ sCustomers data) →
  (l ≫= fixed_entry data s).*1
  = fixed_name
      <$> filter (λ sc, default (Q2Qc 0) (pFixedTransportation data !! sc)
                        ≠ Q2Qc 0)
            ((λ c, (s, c))
               <$> filter (λ c, (s, c) ∈ sSources_Customers data) l).
Proof.
  intros Hs. induction l as [|c l IH]; intros Hl; [done|].
  rewrite bind_cons, fmap_app, IH.
  2:{ intros c' Hc'. apply Hl. by apply list_elem_of_further. }
  rewrite complete_fixed_entry; [|done|apply Hl, list_elem_of_here].
  change (c :: l) with ([c] ++ l).
  by rewrite filter_app, fmap_app, filter_app, fmap_app.
Qed.

Lemma complete_fixed_names (l : list string) :
  (∀ s, s ∈ l → s ∈ sSources data) →
  (l ≫= λ s, sCustomers data ≫= fixed_entry data s).*1
  = fixed_name
      <$> filter (λ sc, default (Q2Qc 0) (pFixedTransportation data !! sc)
                        ≠ Q2Qc 0)
            (l ≫= λ s, (λ c, (s, c)) <$> customers_of data s).
Proof.
  induction l as [|s l IH]; intros Hl; [done|].
  rewrite !bind_cons, fmap_app, filter_app, fmap_app, IH.
  2:{ intros s' Hs'. apply Hl. by apply list_elem_of_further. }
  rewrite complete_fixed_names_of; [done|apply Hl, list_elem_of_here|done].
Qed.

Lemma complete_names :
  ((sSources data ≫= production_entry data)
   ++ (sCustomers data ≫= demand_entry data)
   ++ (sSources data ≫= λ s, sCustomers data ≫= fixed_entry data s)).*1
  = constraint_names data.
Proof.
  rewrite !fmap_app, complete_production_names, complete_demand_names,
    complete_fixed_names; done.
Qed.

End complete_tables.

Lemma NoDup_snoc_fresh (names : list string) nm :
  NoDup (names ++ [nm]) → nm ∉ names.
Proof.
  intros (_ & Hdisj & _)%NoDup_app Hin.
  apply (Hdisj nm Hin), list_elem_of_here.
Qed.

Section complete_loops.

Variable data : Data.
Hypothesis Hcomplete : tables_complete data.

Lemma complete_production_limit s m :
  s ∈ sSources data →
  NoDup ((constraints m).*1 ++ (production_entry data s).*1) →
  production_limit data s m
  = Ok (add_constraints (production_entry data s) m).
Proof.
  intros Hs. destruct Hcomplete as (Hp & _ & _).
  destruct (Hp s Hs) as [rhs Hrhs].
  unfold production_limit, production_entry.
  rewrite (mapM_Ok_fmap _ (λ c, quantity (s, c))).
  2:{ intros c Hc. apply vQuantityExchanged_getitem.
      apply elem_of_customers_of in Hc. apply elem_of_pairs. tauto. }
  unfold getitem. rewrite Hrhs. cbn. intros Hnd%NoDup_snoc_fresh.
  by apply addConstraint_fresh.
Qed.

Lemma complete_demand_limit c m :
  c ∈ sCustomers data →
  NoDup ((constraints m).*1 ++ (demand_entry data c).*1) →
  demand_limit data c m = Ok (add_constraints (demand_entry data c) m).
Proof.
  intros Hc. destruct Hcomplete as (_ & Hd & _).
  destruct (Hd c Hc) as [rhs Hrhs].
  unfold demand_limit, demand_entry.
  rewrite (mapM_Ok_fmap _ (λ s, quantity (s, c))).
  2:{ intros s Hs. apply vQuantityExchanged_getitem.
      apply elem_of_sources_of in Hs. apply elem_of_pairs. tauto. }
  unfold getitem. rewrite Hrhs. cbn. intros Hnd%NoDup_snoc_fresh.
  by apply addConstraint_fresh.
Qed.

Lemma complete_fixed_flow s c m :
  s ∈ sSources data → c ∈ sCustomers data →
  NoDup ((constraints m).*1 ++ (fixed_entry data s c).*1) →
  fixed_flow data s c m = Ok (add_constraints (fixed_entry data s c) m).
Proof.
  intros Hs Hc. destruct Hcomplete as (_ & _ & Hf).
  unfold fixed_flow, fixed_entry.
  destruct (decide ((s, c) ∈ sSources_Customers data)) as [Hl|Hl];
    [|by rewrite add_constraints_nil].
  destruct (Hf (s, c)) as [f Hfix]; [apply elem_of_pairs; tauto|].
  rewrite vQuantityExchanged_getitem by (apply elem_of_pairs; tauto).
  unfold getitem. rewrite Hfix. cbn.
  destruct (decide (f ≠ Q2Qc 0)); [|by rewrite add_constraints_nil].
  cbn. intros Hnd%NoDup_snoc_fresh. by apply addConstraint_fresh.
Qed.

Lemma complete_build :
  NoDup (constraint_names data) →
  build data
  = Ok (add_constraints
          ((sSources data ≫= production_entry data)
           ++ (sCustomers data ≫= demand_entry data)
           ++ (sSources data ≫= λ s, sCustomers data ≫= fixed_entry data s))
          (set_objective
             (lpSum ((λ sc, OExpr (mul (cost data sc) (quantity sc)))
                       <$> pairs data))
             (new_problem "Network_flows_optimization" LpMinimize))).
Proof.
  rewrite <- (complete_names data Hcomplete), !fmap_app.
  intros Hnd. unfold build. rewrite objective_terms_Ok. cbn [mbind result_bind].
  rewrite (for_state_adds _ (production_entry data)).
  2:{ intros s m Hs. by apply complete_production_limit. }
  2:{ cbn. by apply NoDup_app in Hnd as (Hnd & _ & _). }
  cbn [mbind result_bind].
  rewrite (for_state_adds _ (demand_entry data)).
  2:{ intros c m Hc. by apply complete_demand_limit. }
  2:{ cbn. rewrite app_assoc in Hnd. by apply NoDup_app in Hnd as (Hnd & _ & _). }
  cbn [mbind result_bind].
  rewrite (for_state_adds _ (λ s, sCustomers data ≫= fixed_entry data s)).
  - by rewrite !add_constraints_app.
  - intros s m Hs Hnd'. apply (for_state_adds _ (fixed_entry data s)); [|done].
    intros c m' Hc. by apply complete_fixed_flow.
  - cbn. by rewrite fmap_app, <- app_assoc.
Qed.

End complete_loops.


Lemma built_tables_complete data model :
  built data model → tables_complete data.
Proof.
  intros Hb. split; [apply Hb|]. split; [apply Hb|].
  intros [s c]. apply (built_fixed _ _ Hb).
Qed.

Lemma built_names data model :
  built data model → (constraints model).*1 = constraint_names data.
Proof.
  intros Hb. rewrite (built_constraints _ _ Hb).
  apply complete_names. by apply (built_tables_complete data model).
Qed.



(** ** The terms of the constraints *)

Lemma addterm_fresh v a ts :
  v ∉ ts.*1 → addterm v a ts = ts ++ [(v, a)].
Proof.
  induction ts as [|[k y] ts IH]; intros Hv; [done|].
  cbn. rewrite decide_False.
  - rewrite IH; [done|]. intros Hin. apply Hv. by apply list_elem_of_further.
  - intros ->. apply Hv. apply list_elem_of_here.
Qed.

Lemma foldl_addInPlace_vars (vs : list LpVariable) ts c :
  NoDup (ts.*1 ++ vs) →
  foldl addInPlace (mkExpr ts c) (OVar <$> vs)
  = mkExpr (ts ++ ((λ v, (v, 1%Qc)) <$> vs)) c.
Proof.
  revert ts. induction vs as [|v vs IH]; intros ts Hnd.
  - cbn. by rewrite app_nil_r.
  - cbn [fmap list_fmap foldl addInPlace terms constant].
    rewrite addterm_fresh.
    2:{ apply NoDup_app in Hnd as (_ & Hdisj & _). intros Hin.
        apply (Hdisj v Hin), list_elem_of_here. }
    rewrite IH.
    + by rewrite <- app_assoc.
    + rewrite fmap_app. cbn. rewrite <- app_assoc. done.
Qed.

Lemma lpSum_vars_NoDup (vs : list LpVariable) :
  NoDup vs →
  lpSum (OVar <$> vs) = mkExpr ((λ v, (v, 1%Qc)) <$> vs) (Q2Qc 0).
Proof. intros Hnd. unfold lpSum, empty_expr. by rewrite foldl_addInPlace_vars. Qed.

Lemma quantity_inj : Inj (=) (=) quantity.
Proof. intros sc sc' Heq. by injection Heq. Qed.



(** ** The variables of the model *)

Lemma addVariables_snoc vs v known :
  addVariables (vs ++ [v]) known
  = let acc := addVariables vs known in
    if decide (v ∈ acc) then acc else acc ++ [v].
Proof. unfold addVariables. by rewrite foldl_snoc. Qed.

Lemma addVariables_spec vs known :
  NoDup known →
  NoDup (addVariables vs known)
  ∧ ∀ v, v ∈ addVariables vs known ↔ v ∈ known ∨ v ∈ vs.
Proof.
  intros Hnd. induction vs as [|w vs [IHnd IHin]] using rev_ind.
  - split; [done|]. intros v. cbn. rewrite elem_of_nil. tauto.
  - rewrite addVariables_snoc. cbn zeta.
    destruct (decide (w ∈ addVariables vs known)) as [Hw|Hw].
    + split; [done|]. intros v. rewrite IHin, elem_of_app, list_elem_of_singleton.
      split; [tauto|]. intros [?|[?| ->]]; [tauto..|]. by apply IHin.
    + split.
      * apply NoDup_app. split; [done|]. split; [|apply NoDup_singleton].
        intros v Hv ->%list_elem_of_singleton. done.
      * intros v. rewrite !elem_of_app, IHin, list_elem_of_singleton. tauto.
Qed.

Lemma variables_of_constraints_spec (cs : list (string * LpConstraint)) known :
  NoDup known →
  NoDup (foldl (λ known nc, addVariables (terms (expr nc.2)).*1 known)
           known cs)
  ∧ ∀ v, v ∈ foldl (λ known nc, addVariables (terms (expr nc.2)).*1 known)
               known cs
         ↔ v ∈ known ∨ ∃ nc, nc ∈ cs ∧ v ∈ (terms (expr nc.2)).*1.
Proof.
  revert known. induction cs as [|nc cs IH]; intros known Hnd.
  - split; [done|]. intros v. cbn. split; [by left|].
    intros [?|(nc & []%elem_of_nil & _)]. done.
  - cbn [foldl].
    destruct (addVariables_spec (terms (expr nc.2)).*1 known Hnd)
      as [Hnd' Hin'].
    destruct (IH _ Hnd') as [Hnd'' Hin'']. split; [done|].
    intros v. rewrite Hin'', Hin'. split.
    + intros [[?|?]|(nc' & Hnc' & Hv)]; [by left| |].
      * right. exists nc. split; [apply list_elem_of_here|done].
      * right. exists nc'. split; [by apply list_elem_of_further|done].
    + intros [?|(nc' & [->|Hnc']%elem_of_cons & Hv)]; [tauto|tauto|].
      right. by exists nc'.
Qed.

Lemma insert_by_name_Permutation v l : insert_by_name v l ≡ₚ v :: l.
Proof.
  induction l as [|w l IH]; cbn; [done|].
  destruct (String.leb (name v) (name w)); [done|].
  rewrite IH. apply Permutation_swap.
Qed.

Lemma sort_by_name_Permutation l : sort_by_name l ≡ₚ l.
Proof.
  unfold sort_by_name. induction l as [|v l IH]; cbn; [done|].
  by rewrite insert_by_name_Permutation, IH.
Qed.

Lemma insert_by_name_sorted v l :
  sorted_by_name l → sorted_by_name (insert_by_name v l).
Proof.
  unfold sorted_by_name. induction 1 as [|w l Hl IH Hw]; cbn.
  - by repeat constructor.
  - destruct (String.leb (name v) (name w)) eqn:Hvw.
    + constructor; [by constructor|]. constructor.
      * unfold String.le. by rewrite Hvw.
      * eapply Forall_impl; [exact Hw|]. intros u Hu. cbn in Hu.
        etrans; [|exact Hu]. unfold String.le. by rewrite Hvw.
    + constructor; [done|].
      assert (Hwv : String.le (name w) (name v)).
      { destruct (total String.le (name v) (name w)) as [Hle|Hle]; [|done].
        unfold String.le in Hle. by rewrite Hvw in Hle. }
      apply Forall_forall. intros u Hu.
      apply elem_of_insert_by_name in Hu as [->|Hu]; [done|].
      by apply (proj1 (Forall_forall _ _) Hw).
Qed.

Lemma sort_by_name_sorted l : sorted_by_name (sort_by_name l).
Proof.
  unfold sort_by_name. induction l as [|v l IH]; cbn.
  - constructor.
  - by apply insert_by_name_sorted.
Qed.

Lemma elem_of_addterm_iff v k a ts :
  v ∈ (addterm k a ts).*1 ↔ v = k ∨ v ∈ ts.*1.
Proof.
  split; [apply elem_of_addterm|].
  induction ts as [|[k' y] ts IH]; cbn.
  - intros [->|[]%elem_of_nil]. apply list_elem_of_here.
  - destruct (decide (k' = k)) as [->|Hne]; cbn.
    + intros [->|Hin]; [apply list_elem_of_here|done].
    + rewrite !elem_of_cons. intros [->|[->|Hin]]; [right|by left|right].
      * apply IH. by left.
      * apply IH. by right.
Qed.

Lemma lpSum_vars_elem_of v (vs : list LpVariable) :
  v ∈ vs → v ∈ (terms (lpSum (OVar <$> vs))).*1.
Proof.
  unfold lpSum. generalize empty_expr.
  induction vs as [|w vs IH]; intros e; [by intros ?%elem_of_nil|].
  intros [->|Hin]%elem_of_cons; cbn [fmap list_fmap foldl]; [|by apply IH].
  assert (Hkeep : ∀ ws e' u, u ∈ (terms e').*1 →
                    u ∈ (terms (foldl addInPlace e' (OVar <$> ws))).*1).
  { clear. induction ws as [|w ws IH]; intros e' u Hu; [done|].
    cbn [fmap list_fmap foldl]. apply IH. cbn.
    apply elem_of_addterm_iff. by right. }
  apply Hkeep. cbn. apply elem_of_addterm_iff. by left.
Qed.

Lemma built_variables_Permutation data model :
  built data model → variables model ≡ₚ quantity <$> pairs data.
Proof.
  intros Hb. unfold variables. rewrite sort_by_name_Permutation.
  destruct (variables_of_constraints_spec (constraints model) [])
    as [Hnd Hin]; [apply NoDup_nil_2|].
  destruct (addVariables_spec
              (from_option (λ e, (terms e).*1) [] (objective model))
              _ Hnd) as [Hnd' Hin'].
  apply NoDup_Permutation; [done| |].
  - apply NoDup_fmap_2; [apply quantity_inj|].
    apply NoDup_pairs.
    + exact (built_NoDup_sSources data model Hb).
    + exact (built_NoDup_sCustomers data model Hb).
  - intros v. rewrite Hin', Hin, list_elem_of_fmap. split.
    + intros [[[]%elem_of_nil|([nm k] & Hnc & Hv)]|Hv].
      * destruct (built_constraint_vars data model Hb nm k v Hnc Hv)
          as (sc & Hsc & ->). by exists sc.
      * destruct (objective model) as [obj|] eqn:Hobj; cbn in Hv;
          [|by apply elem_of_nil in Hv].
        destruct (built_objective_vars data model Hb obj v Hobj Hv)
          as (sc & Hsc & ->). by exists sc.
    + intros ([s c] & -> & Hsc). left. right.
      pose proof Hsc as (Hs & Hc & Hl)%elem_of_pairs.
      destruct (built_production data model Hb s Hs) as [cap Hcap].
      eexists (production_name s, _). split.
      * rewrite (built_constraints _ _ Hb), !elem_of_app. left.
        apply list_elem_of_bind. exists s. split; [|done].
        unfold production_entry. rewrite Hcap. apply list_elem_of_here.
      * cbn. apply lpSum_vars_elem_of, list_elem_of_fmap. exists c.
        split; [done|]. by apply elem_of_customers_of.
Qed.



(** * Further properties of the report *)

(** ** Total cost and quantities *)

Lemma io_bind_print {B} (a : Line) (k : io B) :
  (print a ≫= λ _, k) = (a :: k.1, k.2).
Proof. by destruct k as [o [|]]. Qed.

Lemma io_bind_ret {A B} (x : A) (f : A → io B) : (mret x ≫= f) = f x.
Proof. cbn. by destruct (f x). Qed.

Lemma io_bind_lift_Ok {A B} (x : A) (f : A → io B) :
  (lift (Ok x) ≫= f) = f x.
Proof. cbn. by destruct (f x). Qed.

Lemma assign_fresh `{EqDecision K} {V} (k : K) (v : V) items :
  k ∉ items.*1 → assign k v items = items ++ [(k, v)].
Proof.
  induction items as [|[k' v'] items IH]; intros Hk; [done|].
  cbn. rewrite decide_False.
  - rewrite IH; [done|]. intros Hin. apply Hk. by apply list_elem_of_further.
  - intros ->. apply Hk. apply list_elem_of_here.
Qed.

Lemma dict_items_NoDup `{EqDecision K} {V} (items : list (K * V)) :
  NoDup items.*1 → dict_items items = items.
Proof.
  unfold dict_items. induction items as [|[k v] items IH] using rev_ind;
    [done|].
  rewrite fmap_app. intros (Hnd & Hdisj & _)%NoDup_app.
  rewrite foldl_snoc, IH by done. cbn. apply assign_fresh.
  intros Hin. apply (Hdisj k Hin), list_elem_of_here.
Qed.

Lemma quantity_items_Ok data sol :
  quantity_items data sol = Ok (positive_flows data sol).
Proof.
  unfold quantity_items, positive_flows.
  rewrite (mapM_Ok_fmap _ (λ sc, (sc, varValue sol (quantity sc)))); [done|].
  intros sc Hsc. by rewrite vQuantityExchanged_getitem.
Qed.

Lemma positive_flows_keys data sol :
  NoDup (pairs data) → NoDup (positive_flows data sol).*1.
Proof.
  intros Hnd. unfold positive_flows.
  assert (Hsub : ∀ l : list Index,
            NoDup l →
            NoDup (filter (λ kv : Index * Qc, (Q2Qc 0 < kv.2)%Qc)
                     ((λ sc, (sc, varValue sol (quantity sc))) <$> l)).*1).
  { clear. induction l as [|sc l IH]; [constructor|].
    intros [Hsc Hl]%NoDup_cons. cbn [fmap list_fmap]. rewrite filter_cons.
    destruct (decide (Q2Qc 0 < (sc, varValue sol (quantity sc)).2)%Qc);
      [|by apply IH].
    cbn. apply NoDup_cons. split; [|by apply IH].
    intros ([k v] & Hk & [_ Hin]%list_elem_of_filter)%list_elem_of_fmap.
    apply list_elem_of_fmap in Hin as (sc' & [= -> ->] & Hin).
    cbn in Hk. by subst. }
  by apply Hsub.
Qed.

Lemma value_objective data x :
  value x (lpSum ((λ sc, OExpr (mul (cost data sc) (quantity sc)))
                    <$> pairs data))
  = Qcsum ((λ sc, cost data sc * x (quantity sc))%Qc <$> pairs data).
Proof.
  rewrite value_lpSum, <- list_fmap_compose. f_equal.
  apply list_fmap_ext. intros _ sc _. cbn. apply value_mul.
Qed.





(** * Further properties of the interpreter *)

(** ** What is read back from a constraint name *)

Lemma substring_skip_add (a b : string) m n :
  String.substring (String.length a + m) n (a +:+ b) = String.substring m n b.
Proof. induction a as [|x a IH]; simpl; [done|]. apply IH. Qed.

Lemma suffix_append_r (a b : string) n :
  n ≤ String.length b → suffix n (a +:+ b) = suffix n b.
Proof.
  intros Hn. unfold suffix. rewrite length_append.
  replace (String.length a + String.length b - n)
    with (String.length a + (String.length b - n)) by lia.
  apply substring_skip_add.
Qed.

Lemma suffix_whole (s : string) : suffix (String.length s) s = s.
Proof.
  unfold suffix. rewrite Nat.sub_diag. apply substring_0_length.
Qed.

Lemma length_translate (s : string) :
  String.length (translate s) = String.length s.
Proof. unfold translate. induction s as [|x s IH]; simpl; [done|]. by f_equal. Qed.

Lemma constraint_number_production s :
  constraint_number (production_name s) = Ok 1.
Proof. reflexivity. Qed.

Lemma constraint_number_demand c : constraint_number (demand_name c) = Ok 2.
Proof. reflexivity. Qed.

Lemma constraint_number_fixed sc : constraint_number (fixed_name sc) = Ok 3.
Proof. reflexivity. Qed.

Lemma suffix_production_name s :
  3 ≤ String.length s →
  suffix 3 (production_name s) = suffix 3 (translate s).
Proof.
  intros Hlen. unfold production_name. rewrite translate_append.
  apply suffix_append_r. by rewrite length_translate.
Qed.

Lemma suffix_demand_name_long c :
  3 ≤ String.length c → suffix 3 (demand_name c) = suffix 3 (translate c).
Proof.
  intros Hlen. unfold demand_name. rewrite translate_append.
  apply suffix_append_r. by rewrite length_translate.
Qed.

Lemma suffix_fixed_name s c :
  3 ≤ String.length c → suffix 3 (fixed_name (s, c)) = suffix 3 (translate c).
Proof.
  intros Hlen. unfold fixed_name. cbn [fst snd].
  rewrite !translate_append.
  rewrite !suffix_append_r; [done|..];
    rewrite ?length_append, ?length_translate; lia.
Qed.



(** ** Codes of more than three characters *)

Lemma constraint_narrative nm p sources n :
  constraint_number nm = Ok n → n ≤ 2 →
  ∃ l,
    print_conclusions_constraints_sensibility_analysis nm p sources
    = ([l], Ok tt)
    ∧ (source_narrative l ↔ suffix 3 nm ∈ sources)
    ∧ (customer_narrative l ↔ suffix 3 nm ∉ sources)
    ∧ last l = Some (PStr (suffix 3 nm)).
Proof.
  intros Hn Hle.
  rewrite (print_constraints_unfold nm p sources n Hn).
  rewrite decide_True by done. eexists. split; [reflexivity|].
  unfold source_narrative, customer_narrative, place_text.
  split; [narrative_cases|]. split; [narrative_cases|].
  by destruct (decide (p < Q2Qc 0)%Qc), (decide (Q2Qc 0 < p)%Qc).
Qed.



(** ** A row that cannot be interpreted *)

Lemma for_each_raise {A} (body : A → io unit) (before : list A) (x : A)
  (after : list A) e :
  (∀ y, y ∈ before → (body y).2 = Ok tt) →
  (body x).2 = Raise e →
  for_each body (before ++ x :: after)
  = ((before ≫= λ y, (body y).1) ++ (body x).1, Raise e).
Proof.
  intros Hok Hx. induction before as [|y before IH].
  - cbn. destruct (body x) as [out r]. cbn in Hx. by subst r.
  - cbn [app for_each]. rewrite IH.
    2:{ intros z Hz. apply Hok. by apply list_elem_of_further. }
    specialize (Hok y (list_elem_of_here _ _)).
    destruct (body y) as [out [[]|e']] eqn:Hy; [|discriminate].
    cbn. rewrite Hy. cbn. by rewrite app_assoc.
Qed.

Lemma constraint_number_short nm :
  String.length nm < 3 → constraint_number nm = Raise ValueError.
Proof.
  intros Hlen. unfold constraint_number, slice.
  destruct nm as [|a [|b [|c nm]]]; [done..|]. cbn in Hlen. lia.
Qed.

(** The conclusions stop at the first selected row that cannot be
    interpreted: a constraint with slack 0 whose name has no family
    ordinal (for instance a name of fewer than three characters) raises
    [ValueError], a variable with value 0 whose name holds fewer than two
    quoted three-character codes raises [IndexError]; the conclusions of
    the rows before it are printed, and no row after it is interpreted. *)
Theorem conclusions_stop_at_bad_row :
  (∀ before row after sources e,
     (∀ r, r ∈ before → row_Slack r = Q2Qc 0 →
           ∃ n, constraint_number (row_Constraint r) = Ok n) →
     row_Slack row = Q2Qc 0 →
     constraint_number (row_Constraint row) = Raise e →
     conclusions_constraints (before ++ row :: after) sources
     = (before ≫= statements_for_constraint sources, Raise e))
  ∧ (∀ before row after,
       (∀ r, r ∈ before → row_Value r = Q2Qc 0 →
             ∃ s c rest, findall (row_Variable r) = s :: c :: rest) →
       row_Value row = Q2Qc 0 →
       (findall (row_Variable row) = []
        ∨ ∃ s, findall (row_Variable row) = [s]) →
       conclusions_variables (before ++ row :: after)
       = (before ≫= statements_for_variable, Raise IndexError))
  ∧ (∀ nm p sources,
       String.length nm < 3 →
       print_conclusions_constraints_sensibility_analysis nm p sources
       = ([], Raise ValueError)).
Proof.
  split; [|split].
  - intros before row after sources e Hparse Hz He.
    unfold conclusions_constraints, select_zero_apply.
    destruct (before ++ row :: after) eqn:Hrows;
      [by destruct before|]. rewrite <- Hrows. clear Hrows.
    rewrite filter_app, filter_cons, decide_True by done.
    rewrite (for_each_raise _ _ _ _ e).
    + rewrite (print_constraints_no_number _ _ sources e He), app_nil_r.
      by rewrite bind_filter.
    + intros r [Hrz Hr]%list_elem_of_filter.
      destruct (Hparse r Hr Hrz) as [n Hn].
      rewrite (print_constraints_unfold _ _ sources n Hn).
      by destruct (decide (n ≤ 2)).
    + by rewrite (print_constraints_no_number _ _ sources e He).
  - intros before row after Hparse Hz Hfew.
    unfold conclusions_variables, select_zero_apply.
    destruct (before ++ row :: after) eqn:Hrows;
      [by destruct before|]. rewrite <- Hrows. clear Hrows.
    rewrite filter_app, filter_cons, decide_True by done.
    rewrite (for_each_raise _ _ _ _ IndexError).
    + rewrite (print_variables_too_few _ _ Hfew), app_nil_r.
      by rewrite bind_filter.
    + intros r [Hrz Hr]%list_elem_of_filter.
      destruct (Hparse r Hr Hrz) as (s & c & rest & Hfind).
      by rewrite (print_variables_unfold _ _ s c rest Hfind).
    + by rewrite (print_variables_too_few _ _ Hfew).
  - intros nm p sources Hlen.
    apply print_constraints_no_number. by apply constraint_number_short.
Qed.

Lemma conclusions_stop_at_bad_row_witness :
  conclusions_variables
    ([mkVariableRow "quantity_in_tons_('Arn',_'Ams')" (q 0 1) (q 3 5)]
     ++ mkVariableRow (name (quantity ("Gouda", "Ams"))) (q 0 1) (q 1 1)
        :: [mkVariableRow "quantity_in_tons_('Arn',_'Ber')" (q 0 1) (q 1 2)])
  = ([[PStr "The total cost would be increased in";
       PNum (q 3 5);
       PStr "euros for each ton supply from";
       PStr "Arn"; PStr "to"; PStr "Ams"]],
     Raise IndexError).
Proof.
  rewrite (proj1 (proj2 conclusions_stop_at_bad_row)).
  - reflexivity.
  - intros r Hr _. revert r Hr. apply Forall_forall.
    repeat constructor; cbn; eauto.
  - reflexivity.
  - right. by eexists.
Defined.

(** * Further properties of the tables *)

(** ** Fixed-flow items outside the lanes *)

Lemma fixed_flow_with_fixed_items data items s c m :
  s ∈ sSources data → c ∈ sCustomers data →
  (∀ sc, sc ∈ pairs data →
         dict items !! sc = pFixedTransportation data !! sc) →
  fixed_flow (with_fixed_items items data) s c m = fixed_flow data s c m.
Proof.
  intros Hs Hc Hsame. unfold fixed_flow.
  change (sSources_Customers (with_fixed_items items data))
    with (sSources_Customers data).
  change (vQuantityExchanged (with_fixed_items items data))
    with (vQuantityExchanged data).
  change (pFixedTransportation (with_fixed_items items data))
    with (dict items).
  destruct (decide ((s, c) ∈ sSources_Customers data)) as [Hl|Hl]; [|done].
  assert (Hget : getitem (dict items) (s, c)
                 = getitem (pFixedTransportation data) (s, c)).
  { unfold getitem. rewrite Hsame; [done|]. apply elem_of_pairs. tauto. }
  by rewrite Hget.
Qed.

(** The builder reads the fixed-flow table only at the lanes between a
    declared source and a declared customer: items for other pairs change
    nothing, the builder returns the same model or raises the same
    exception. *)
Theorem build_ignores_other_fixed_items data items :
  (∀ sc, sc ∈ pairs data →
         dict items !! sc = pFixedTransportation data !! sc) →
  build (with_fixed_items items data) = build data.
Proof.
  intros Hsame. unfold build.
  change (objective_terms (with_fixed_items items data))
    with (objective_terms data).
  change (production_limit (with_fixed_items items data))
    with (production_limit data).
  change (demand_limit (with_fixed_items items data))
    with (demand_limit data).
  change (sSources (with_fixed_items items data)) with (sSources data).
  change (sCustomers (with_fixed_items items data)) with (sCustomers data).
  destruct (objective_terms data) as [ops|e]; cbn; [|done].
  destruct (for_state (production_limit data) (sSources data) _)
    as [m1|e]; cbn; [|done].
  destruct (for_state (demand_limit data) (sCustomers data) m1)
    as [m2|e]; cbn; [|done].
  apply for_state_ext. intros s m Hs.
  apply for_state_ext. intros c m' Hc.
  by apply fixed_flow_with_fixed_items.
Qed.

Lemma build_ignores_other_fixed_items_witness :
  build (with_fixed_items
           ((("Gou", "Ber"), q 7 1) :: (("Xyz", "Ams"), q 2 1)
            :: data_pFixedTransportation sample_data)
           sample_data)
  = build sample_data.
Proof.
  apply build_ignores_other_fixed_items.
  intros [s c] Hsc. apply (bool_decide_unpack _). revert s c Hsc.
  assert (Hall : Forall (λ sc : Index,
            bool_decide
              (dict ((("Gou", "Ber"), q 7 1) :: (("Xyz", "Ams"), q 2 1)
                     :: data_pFixedTransportation sample_data) !! sc
               = pFixedTransportation sample_data !! sc))
            (pairs sample_data)).
  { vm_compute. repeat constructor. }
  intros s c Hsc. exact (proj1 (Forall_forall _ _) Hall (s, c) Hsc).
Defined.

(** ** A lane listed twice *)

Lemma dict_lookup_last `{Countable K} {V} (before : list (K * V)) k v after :
  k ∉ after.*1 → dict (before ++ (k, v) :: after) !! k = Some v.
Proof.
  induction after as [|[k' v'] after IH] using rev_ind; intros Hk.
  - by rewrite dict_snoc, lookup_insert_eq.
  - rewrite fmap_app, not_elem_of_app in Hk. destruct Hk as [Hk Hk'].
    rewrite app_comm_cons, app_assoc, dict_snoc.
    rewrite lookup_insert_ne; [by apply IH|].
    intros ->. apply Hk'. apply list_elem_of_here.
Qed.



(** * The whole report *)

Lemma plain_code_findall s c :
  plain_code s → plain_code c → findall (name (quantity (s, c))) = [s; c].
Proof.
  intros Hs Hc. rewrite (plain_code_name s c Hs Hc).
  destruct Hs as (a1 & a2 & a3 & -> & Ha1 & Ha2 & Ha3).
  destruct Hc as (b1 & b2 & b3 & -> & Hb1 & Hb2 & Hb3).
  pose proof Ha3 as (_ & Ha3' & _). pose proof Hb1 as (_ & Hb1' & _).
  pose proof Hb3 as (_ & Hb3' & _).
  unfold findall. cbv [String.append chr].
  do 19 (rewrite findall_skip by not_apostrophe).
  rewrite findall_match by (by apply plain_dot).
  rewrite findall_skip by congruence.
  rewrite findall_no_lookahead by done.
  do 2 (rewrite findall_skip by not_apostrophe).
  rewrite findall_match by (by apply plain_dot).
  rewrite findall_skip by congruence.
  reflexivity.
Qed.

Lemma io_bind_Ok {A B} (out : list Line) (x : A) (f : A → io B) :
  ((out, Ok x) ≫= f) = (out ++ (f x).1, (f x).2).
Proof. cbn. by destruct (f x). Qed.

Lemma constraint_names_numbered data nm :
  nm ∈ constraint_names data → ∃ n, constraint_number nm = Ok n.
Proof.
  unfold constraint_names. rewrite !elem_of_app, !list_elem_of_fmap.
  intros [(s & -> & _)|[(c & -> & _)|(sc & -> & _)]]; by eexists.
Qed.



(** * The exceptions of the builder *)

Lemma for_state_Raise {A S} (body : A → S → result S) (l : list A)
  (P : PyError → Prop) :
  (∀ x st e, x ∈ l → body x st = Raise e → P e) →
  ∀ st e, for_state body l st = Raise e → P e.
Proof.
  induction l as [|a l IH]; intros Hbody st e; [done|].
  cbn. destruct (body a st) as [st'|e'] eqn:Ha; cbn.
  - apply IH. intros x st'' e'' Hx. apply Hbody. by apply list_elem_of_further.
  - intros [= <-]. apply (Hbody a st e'); [apply list_elem_of_here|done].
Qed.

Lemma addConstraint_Raise c nm m e :
  addConstraint c nm m = Raise e → e = PulpError.
Proof.
  unfold addConstraint.
  destruct (decide (translate nm ∈ (constraints m).*1)); [|done].
  by intros [= <-].
Qed.

Lemma production_limit_Raise data s m e :
  s ∈ sSources data → production_limit data s m = Raise e →
  (pSourceProduction data !! s = None ∧ e = KeyError)
  ∨ (is_Some (pSourceProduction data !! s) ∧ e = PulpError).
Proof.
  intros Hs. unfold production_limit.
  rewrite (mapM_Ok_fmap _ (λ c, quantity (s, c))).
  2:{ intros c Hc. apply vQuantityExchanged_getitem.
      apply elem_of_customers_of in Hc. apply elem_of_pairs. tauto. }
  cbn. unfold getitem.
  destruct (pSourceProduction data !! s) as [rhs|]; cbn.
  - intros ->%addConstraint_Raise. right. eauto.
  - intros [= <-]. by left.
Qed.

Lemma demand_limit_Raise data c m e :
  c ∈ sCustomers data → demand_limit data c m = Raise e →
  (pCustomerDemand data !! c = None ∧ e = KeyError)
  ∨ (is_Some (pCustomerDemand data !! c) ∧ e = PulpError).
Proof.
  intros Hc. unfold demand_limit.
  rewrite (mapM_Ok_fmap _ (λ s, quantity (s, c))).
  2:{ intros s Hs. apply vQuantityExchanged_getitem.
      apply elem_of_sources_of in Hs. apply elem_of_pairs. tauto. }
  cbn. unfold getitem.
  destruct (pCustomerDemand data !! c) as [rhs|]; cbn.
  - intros ->%addConstraint_Raise. right. eauto.
  - intros [= <-]. by left.
Qed.

Lemma fixed_flow_Raise data s c m e :
  s ∈ sSources data → c ∈ sCustomers data →
  fixed_flow data s c m = Raise e →
  (s, c) ∈ pairs data
  ∧ ((pFixedTransportation data !! (s, c) = None ∧ e = KeyError)
     ∨ (is_Some (pFixedTransportation data !! (s, c)) ∧ e = PulpError)).
Proof.
  intros Hs Hc. unfold fixed_flow.
  destruct (decide ((s, c) ∈ sSources_Customers data)) as [Hl|Hl]; [|done].
  assert (Hsc : (s, c) ∈ pairs data) by (apply elem_of_pairs; tauto).
  rewrite vQuantityExchanged_getitem by done. unfold getitem.
  destruct (pFixedTransportation data !! (s, c)) as [f|]; cbn.
  - destruct (decide (f ≠ Q2Qc 0)); [|done]. cbn.
    intros ->%addConstraint_Raise. split; [done|]. right. eauto.
  - intros [= <-]. split; [done|]. by left.
Qed.



(** * The linear program that the model states *)

(** Values of the variables satisfy every constraint of the returned
    model exactly when each declared source ships at most its capacity to
    the customers it serves, each declared customer receives at least its
    demand from the sources that serve it, and each lane with a fixed flow
    other than zero carries exactly that flow. *)
Theorem build_feasible_iff data model x :
  build data = Ok model →
  (∀ nm k, (nm, k) ∈ constraints model → satisfied x k)
  ↔ (∀ s cap, s ∈ sSources data → pSourceProduction data !! s = Some cap →
       (Qcsum ((λ c, x (quantity (s, c))) <$> customers_of data s) ≤ cap)%Qc)
    ∧ (∀ c dem, c ∈ sCustomers data → pCustomerDemand data !! c = Some dem →
         (dem ≤ Qcsum ((λ s, x (quantity (s, c))) <$> sources_of data c))%Qc)
    ∧ (∀ sc f, sc ∈ pairs data → pFixedTransportation data !! sc = Some f →
         f ≠ Q2Qc 0 → x (quantity sc) = f).
Proof.
  intros Hb%build_Ok_built. split.
  - intros Hsat. split; [|split].
    + intros s cap Hs Hcap.
      rewrite (list_fmap_compose (λ c, quantity (s, c)) x),
        <- value_lpSum_vars, <- satisfied_le.
      apply (Hsat (production_name s)).
      rewrite (built_constraints _ _ Hb), !elem_of_app. left.
      apply list_elem_of_bind. exists s. split; [|done].
      unfold production_entry. rewrite Hcap. apply list_elem_of_here.
    + intros c dem Hc Hdem.
      rewrite (list_fmap_compose (λ s, quantity (s, c)) x),
        <- value_lpSum_vars, <- satisfied_ge.
      apply (Hsat (demand_name c)).
      rewrite (built_constraints _ _ Hb), !elem_of_app. right. left.
      apply list_elem_of_bind. exists c. split; [|done].
      unfold demand_entry. rewrite Hdem. apply list_elem_of_here.
    + intros [s c] f Hsc Hf Hne. rewrite <- satisfied_eq_var.
      apply (Hsat (fixed_name (s, c))).
      pose proof Hsc as (Hs & Hc & Hl)%elem_of_pairs.
      rewrite (built_constraints _ _ Hb), !elem_of_app. right. right.
      apply list_elem_of_bind. exists s. split; [|done].
      apply list_elem_of_bind. exists c. split; [|done].
      unfold fixed_entry. rewrite decide_True, Hf, decide_True by done.
      apply list_elem_of_here.
  - intros (Hcap & Hdem & Hfix) nm k.
    rewrite (built_constraints _ _ Hb), !elem_of_app.
    intros [Hin|[Hin|Hin]].
    + apply list_elem_of_bind in Hin as (s & Hin & Hs).
      unfold production_entry in Hin.
      destruct (pSourceProduction data !! s) as [cap|] eqn:Hc;
        [|by apply elem_of_nil in Hin].
      apply list_elem_of_singleton in Hin as [= -> ->].
      rewrite satisfied_le, value_lpSum_vars, <- list_fmap_compose.
      by apply Hcap.
    + apply list_elem_of_bind in Hin as (c & Hin & Hc).
      unfold demand_entry in Hin.
      destruct (pCustomerDemand data !! c) as [dem|] eqn:Hd;
        [|by apply elem_of_nil in Hin].
      apply list_elem_of_singleton in Hin as [= -> ->].
      rewrite satisfied_ge, value_lpSum_vars, <- list_fmap_compose.
      by apply Hdem.
    + apply list_elem_of_bind in Hin as (s & Hin & Hs).
      apply list_elem_of_bind in Hin as (c & Hin & Hc).
      unfold fixed_entry in Hin.
      destruct (decide ((s, c) ∈ sSources_Customers data)) as [Hl|];
        [|by apply elem_of_nil in Hin].
      destruct (pFixedTransportation data !! (s, c)) as [f|] eqn:Hf;
        [|by apply elem_of_nil in Hin].
      destruct (decide (f ≠ Q2Qc 0)); [|by apply elem_of_nil in Hin].
      apply list_elem_of_singleton in Hin as [= -> ->].
      rewrite satisfied_eq_var. apply Hfix; [|done..].
      apply elem_of_pairs. tauto.
Qed.

Lemma build_feasible_iff_witness :
  ∃ model,
    build sample_data = Ok model
    ∧ ((∀ nm k, (nm, k) ∈ constraints model
                → satisfied (varValue infeasible_answer) k)
       → varValue infeasible_answer (quantity ("Arn", "Ams")) = q 1 1).
Proof.
  destruct (build sample_data) as [model|e] eqn:Hbuild;
    [|vm_compute in Hbuild; discriminate Hbuild].
  exists model. split; [reflexivity|]. intros Hsat.
  apply (proj1 (build_feasible_iff sample_data model
                  (varValue infeasible_answer) Hbuild)) in Hsat
    as (_ & _ & Hfix).
  apply (Hfix ("Arn", "Ams") (q 1 1)).
  - apply (bool_decide_unpack _). vm_compute. exact I.
  - vm_compute. reflexivity.
  - intros Heq. discriminate Heq.
Defined.

(** The objective of the returned model is worth the sum, over the pairs
    of a declared source and a declared customer that the cost table
    lists, of the cost times the value of the variable: a cost item for a
    source or a customer that is not declared adds nothing. *)
Theorem build_objective_value data model :
  build data = Ok model →
  ∃ obj,
    objective model = Some obj
    ∧ (∀ x, value x obj
            = Qcsum ((λ sc, cost data sc * x (quantity sc))%Qc
                       <$> pairs data))
    ∧ (∀ s c, mentions obj (s, c) →
              s ∈ sSources data ∧ c ∈ sCustomers data
              ∧ (s, c) ∈ sSources_Customers data
              ∧ cost data (s, c) ≠ Q2Qc 0).
Proof.
  intros Hb%build_Ok_built. eexists. split; [apply Hb|].
  split; [intros x; apply value_objective|].
  intros s c (v & Hv & Hid)%mentions_vars.
  apply elem_of_lpSum in Hv as (o & (sc & -> & Hsc)%list_elem_of_fmap & Hv).
  cbn in Hv. unfold mul in Hv.
  destruct (decide (cost data sc ≠ Q2Qc 0)) as [Hne|];
    [|by apply elem_of_nil in Hv].
  cbn in Hv. apply list_elem_of_singleton in Hv as ->. cbn in Hid.
  subst sc. apply elem_of_pairs in Hsc. tauto.
Qed.

Lemma build_objective_value_witness :
  ∃ model obj,
    build sample_data = Ok model
    ∧ objective model = Some obj
    ∧ ∀ x, value x obj
           = Qcsum ((λ sc, cost sample_data sc * x (quantity sc))%Qc
                      <$> pairs sample_data).
Proof.
  destruct (build sample_data) as [model|e] eqn:Hbuild;
    [|vm_compute in Hbuild; discriminate Hbuild].
  destruct (build_objective_value sample_data model Hbuild)
    as (obj & Hobj & Hvalue & _).
  by exists model, obj.
Defined.
